(** * Shardman metadata store: a shallow embedding of [internal/store/store.go]

    The development follows the source file top-down: the path helpers the
    store keys are built with, the JSON documents and their typed decoders,
    the backing key-value store, the cluster metadata facade, the spec merge
    ([patchClusterSpec]), the spec propagation ([UpdateStolonSpec]) and the
    connection resolver ([GetSuConnstrMap]). *)

From Stdlib Require Import ZArith Ascii String List Bool Lia.
From stdpp Require Import base option list strings gmap fin_maps.

Local Open Scope string_scope.
Local Open Scope list_scope.

#[local] Set Warnings "-register-all".

(** ** Go's [path/filepath] on a Unix target

    [NewClusterStore] and every facade accessor build their key with
    [filepath.Join].  The functions below transcribe [filepath.Clean] and
    [filepath.Join] of the Go standard library ([Separator] is the slash, the
    volume name is empty and [FromSlash] is the identity). *)

Module filepath.

Definition Separator : ascii := "/"%char.

Definition IsPathSeparator (c : ascii) : bool := Ascii.eqb c Separator.

Definition is_dot (c : ascii) : bool := Ascii.eqb c "."%char.

(** [r == n || IsPathSeparator(path[r])] on the unread part of the path. *)
Definition at_end_or_sep (rest : list ascii) : bool :=
  match rest with
  | [] => true
  | c :: _ => IsPathSeparator c
  end.

(** The output buffer ([lazybuf]) is kept as the list of the bytes written so
    far, last byte first: [out.w] is its length and [out.append c] is a cons.

    [backtrack] is the body of the [..] case when [out.w > dotdot]:
    [out.w--; for out.w > dotdot && !IsPathSeparator(out.index(out.w)) { out.w-- }].
    After each decrement [out.index(out.w)] is the byte just dropped. *)
Fixpoint backtrack (dotdot : nat) (out : list ascii) : list ascii :=
  match out with
  | [] => []
  | c :: out' =>
      if (dotdot <? length out')%nat && negb (IsPathSeparator c)
      then backtrack dotdot out'
      else out'
  end.

(** [for ; r < n && !IsPathSeparator(path[r]); r++ { out.append(path[r]) }] *)
Fixpoint copy_element (rest out : list ascii) : list ascii * list ascii :=
  match rest with
  | [] => ([], out)
  | c :: rest' =>
      if IsPathSeparator c then (rest, out) else copy_element rest' (c :: out)
  end.

(** The main loop [for r < n { switch { ... } }].  Every iteration consumes at
    least one byte, so [fuel = n] iterations are enough. *)
Fixpoint Clean_loop (fuel : nat) (rooted : bool) (rest out : list ascii)
    (dotdot : nat) : list ascii :=
  match fuel with
  | O => out
  | S fuel' =>
      match rest with
      | [] => out
      | c :: rest1 =>
          if IsPathSeparator c then
            (* empty path element *)
            Clean_loop fuel' rooted rest1 out dotdot
          else if is_dot c && at_end_or_sep rest1 then
            (* . element *)
            Clean_loop fuel' rooted rest1 out dotdot
          else if is_dot c
                  && match rest1 with
                     | c1 :: rest2 => is_dot c1 && at_end_or_sep rest2
                     | [] => false
                     end then
            (* .. element: remove to last separator *)
            let rest2 := tl rest1 in
            if (dotdot <? length out)%nat then
              Clean_loop fuel' rooted rest2 (backtrack dotdot out) dotdot
            else if negb rooted then
              let out1 := if (0 <? length out)%nat then Separator :: out else out in
              let out2 := "."%char :: "."%char :: out1 in
              Clean_loop fuel' rooted rest2 out2 (length out2)
            else
              Clean_loop fuel' rooted rest2 out dotdot
          else
            (* real path element: add slash if needed, copy element *)
            let out1 :=
              if (rooted && negb (length out =? 1)%nat)
                 || (negb rooted && negb (length out =? 0)%nat)
              then Separator :: out else out in
            let '(rest', out2) := copy_element rest out1 in
            Clean_loop fuel' rooted rest' out2 dotdot
      end
  end.

Definition Clean (path : string) : string :=
  let p := list_ascii_of_string path in
  match p with
  | [] => "."
  | c :: p1 =>
      let rooted := IsPathSeparator c in
      let out :=
        if rooted then Clean_loop (length p) rooted p1 [Separator] 1
        else Clean_loop (length p) rooted p [] 0 in
      (* Turn empty string into "." *)
      match out with
      | [] => "."
      | _ => string_of_list_ascii (rev out)
      end
  end.

(** [strings.Join(elem, "/")] *)
Fixpoint strings_Join (elem : list string) : string :=
  match elem with
  | [] => ""
  | [e] => e
  | e :: rest => e ++ "/" ++ strings_Join rest
  end.

(** [Join]: leading empty elements are skipped, the rest is joined with the
    separator and cleaned; all elements empty gives the empty string. *)
Fixpoint Join (elem : list string) : string :=
  match elem with
  | [] => ""
  | e :: rest =>
      if String.eqb e "" then Join rest else Clean (strings_Join elem)
  end.

End filepath.

(** ** JSON documents

    Every document read from or written to the store, and both sides of the
    spec merge, is JSON.  Objects keep their members as an association list in
    document order; numbers are integers. *)

Inductive json : Type :=
| JNull
| JBool (b : bool)
| JNum (n : Z)
| JStr (s : string)
| JArr (elems : list json)
| JObj (members : list (string * json)).

Definition is_scalar (v : json) : bool :=
  match v with
  | JBool _ | JNum _ | JStr _ => true
  | _ => false
  end.

Definition is_null (v : json) : bool :=
  match v with JNull => true | _ => false end.

Fixpoint json_eqb (x y : json) {struct x} : bool :=
  match x, y with
  | JNull, JNull => true
  | JBool a, JBool b => Bool.eqb a b
  | JNum a, JNum b => Z.eqb a b
  | JStr a, JStr b => String.eqb a b
  | JArr xs, JArr ys =>
      (fix all2 (xs ys : list json) {struct xs} : bool :=
         match xs, ys with
         | [], [] => true
         | x :: xs', y :: ys' => json_eqb x y && all2 xs' ys'
         | _, _ => false
         end) xs ys
  | JObj xs, JObj ys =>
      (fix all2 (xs ys : list (string * json)) {struct xs} : bool :=
         match xs, ys with
         | [], [] => true
         | (k, x) :: xs', (k', y) :: ys' =>
             String.eqb k k' && json_eqb x y && all2 xs' ys'
         | _, _ => false
         end) xs ys
  | _, _ => false
  end.

(** Object members: lookup, in-place assignment and removal by key. *)
Fixpoint obj_get (k : string) (o : list (string * json)) : option json :=
  match o with
  | [] => None
  | (k', v) :: o' => if String.eqb k k' then Some v else obj_get k o'
  end.

Fixpoint obj_set (k : string) (v : json) (o : list (string * json))
    : list (string * json) :=
  match o with
  | [] => [(k, v)]
  | (k', v') :: o' =>
      if String.eqb k k' then (k, v) :: o' else (k', v') :: obj_set k v o'
  end.

Fixpoint obj_del (k : string) (o : list (string * json))
    : list (string * json) :=
  match o with
  | [] => []
  | (k', v') :: o' =>
      if String.eqb k k' then obj_del k o' else (k', v') :: obj_del k o'
  end.

(** The value found by following a path of member names through nested
    objects; [None] when a name is missing or a non-object is reached. *)
Fixpoint json_at (path : list string) (d : json) : option json :=
  match path with
  | [] => Some d
  | k :: path' =>
      match d with
      | JObj o =>
          match obj_get k o with
          | Some v => json_at path' v
          | None => None
          end
      | _ => None
      end
  end.

(** A patch document omits a path when, walking down its objects, a member
    name of the path is missing. *)
Fixpoint omits (path : list string) (p : json) : bool :=
  match path with
  | [] => false
  | k :: path' =>
      match p with
      | JObj o =>
          match obj_get k o with
          | Some v => omits path' v
          | None => true
          end
      | _ => false
      end
  end.

(** Member names are unique at every level of the document. *)
Fixpoint wf_json (d : json) : Prop :=
  match d with
  | JArr l => (fix all (l : list json) : Prop :=
                 match l with [] => True | x :: l' => wf_json x /\ all l' end) l
  | JObj o =>
      NoDup (map fst o)
      /\ (fix all (o : list (string * json)) : Prop :=
            match o with [] => True | (_, v) :: o' => wf_json v /\ all o' end) o
  | _ => True
  end.

(** ** The spec merge engine *)

Section Merge.

(** The merge keys of list fields are schema metadata of the spec type, whose
    declaration is outside [store.go]. *)

Variable mergeKey : string -> option string.

(** The position in a list of the first object whose [mk] member is [kv]. *)
Fixpoint find_by_key (mk : string) (kv : json) (l : list json) : option nat :=
  match l with
  | [] => None
  | e :: l' =>
      match e with
      | JObj o =>
          match obj_get mk o with
          | Some kv' =>
              if json_eqb kv kv' then Some O
              else option_map S (find_by_key mk kv l')
          | None => option_map S (find_by_key mk kv l')
          end
      | _ => option_map S (find_by_key mk kv l')
      end
  end.

(** Modelled from the spec: [strategicpatch.StrategicMergePatch] is not part
    of [store.go]; the merge of two JSON documents follows section 4.2 of the
    design.  A member of the patch with a null value deletes the member; a
    member missing from the base is taken from the patch; two objects are
    merged member by member; two lists are merged by key when the schema
    designates a merge key for the field and replaced otherwise; anything else
    takes the patch value. *)
Fixpoint mergeValue (field : string) (orig patch : json) {struct patch} : json :=
  match patch with
  | JObj pf =>
      match orig with
      | JObj om =>
          JObj ((fix fields (pf acc : list (string * json)) {struct pf} :=
                   match pf with
                   | [] => acc
                   | (k, pv) :: pf' =>
                       fields pf'
                         (match pv with
                          | JNull => obj_del k acc
                          | _ =>
                              match obj_get k acc with
                              | None => obj_set k pv acc
                              | Some ov => obj_set k (mergeValue k ov pv) acc
                              end
                          end)
                   end) pf om)
      | _ => patch
      end
  | JArr pl =>
      match orig, mergeKey field with
      | JArr ol, Some mk =>
          JArr ((fix elems (pl acc : list json) {struct pl} :=
                   match pl with
                   | [] => acc
                   | pe :: pl' =>
                       elems pl'
                         (match pe with
                          | JObj po =>
                              match obj_get mk po with
                              | Some kv =>
                                  match find_by_key mk kv acc with
                                  | Some i =>
                                      match acc !! i with
                                      | Some oe => <[i := mergeValue field oe pe]> acc
                                      | None => acc ++ [pe]
                                      end
                                  | None => acc ++ [pe]
                                  end
                              | None => acc ++ [pe]
                              end
                          | _ => acc ++ [pe]
                          end)
                   end) pl ol)
      | _, _ => patch
      end
  | _ => patch
  end.

(** One member of the patch applied to the object built so far. *)
Definition mergeMember (acc : list (string * json)) (m : string * json)
    : list (string * json) :=
  let '(k, pv) := m in
  match pv with
  | JNull => obj_del k acc
  | _ =>
      match obj_get k acc with
      | None => obj_set k pv acc
      | Some ov => obj_set k (mergeValue k ov pv) acc
      end
  end.

Definition mergeMap (original patch : list (string * json))
    : list (string * json) :=
  fold_left mergeMember patch original.

End Merge.

(** ** Errors

    Go [error] values; a nil error is [None] of [option error].  The store
    defines no error values of its own: it passes on what the backend, the
    JSON package, the patch package and the collaborators return, and wraps
    some of them with [fmt.Errorf]. *)

Inductive error : Type :=
| BackendError (msg : string)
| SyntaxError
| UnmarshalTypeError (field : string)
| ErrBadJSONDoc
| CollaboratorError (msg : string)
| Errorf (format : string) (cause : error).

(** The result of running code that may dereference a nil pointer. *)
Inductive exec (A : Type) : Type :=
| Returns (a : A)
| Panics (msg : string).

Arguments Returns {A} a.
Arguments Panics {A} msg.

Definition nil_dereference : string :=
  "runtime error: invalid memory address or nil pointer dereference".

(** ** Decoding JSON objects into Go structs

    [encoding/json] matches an object key with a struct field by its JSON
    name, preferring an exact match and accepting one that differs by letter
    case only; keys that match no field are ignored.  (The fold below covers
    ASCII letters.) *)

Definition lower_ascii (c : ascii) : ascii :=
  let n := nat_of_ascii c in
  if (65 <=? n)%nat && (n <=? 90)%nat then ascii_of_nat (n + 32) else c.

Definition to_lower (s : string) : string :=
  string_of_list_ascii (map lower_ascii (list_ascii_of_string s)).

Definition equalFold (a b : string) : bool :=
  String.eqb (to_lower a) (to_lower b).

Definition match_field (names : list string) (k : string) : option string :=
  match find (String.eqb k) names with
  | Some f => Some f
  | None => find (equalFold k) names
  end.

(** A struct whose fields can each be unset (nil pointers, maps and slices)
    is kept as the finite map from the JSON names of its set fields to their
    values; the field values stay JSON, the Go types of the fields being
    declared outside this file.  A null member unsets its field. *)
Definition decode_member (names : list string) (m : gmap string json)
    (kv : string * json) : gmap string json :=
  let '(k, v) := kv in
  match match_field names k with
  | Some f => if is_null v then delete f m else <[f := v]> m
  | None => m
  end.

Definition decode_struct (names : list string) (cur : gmap string json)
    (members : list (string * json)) : gmap string json :=
  fold_left (decode_member names) members cur.

(** Fields are written in declaration order; an unset field is left out when
    it is tagged [omitempty] and written as null otherwise. *)
Definition encode_field (m : gmap string json) (fd : string * bool)
    : option (string * json) :=
  let '(f, omitempty) := fd in
  match m !! f with
  | Some v => if is_null v
              then (if omitempty then None else Some (f, JNull))
              else Some (f, v)
  | None => if omitempty then None else Some (f, JNull)
  end.

Definition encode_struct (fields : list (string * bool)) (m : gmap string json)
    : list (string * json) :=
  omap (encode_field m) fields.

(** [strings.Split(s, ",")] *)
Fixpoint split_on (sep : ascii) (cur s : list ascii) : list string :=
  match s with
  | [] => [string_of_list_ascii (rev cur)]
  | c :: s' =>
      if Ascii.eqb c sep then string_of_list_ascii (rev cur) :: split_on sep [] s'
      else split_on sep (c :: cur) s'
  end.

Definition strings_Split (s : string) (sep : ascii) : list string :=
  split_on sep [] (list_ascii_of_string s).

(** ** The types of package [cluster] that the store uses

    The declarations of [cluster.ClusterData], [cluster.StolonSpec],
    [cluster.Master] and [cluster.RepGroup] are outside [store.go].
    [RepGroup] stays abstract.  A [StolonSpec] is "a hierarchical,
    partially-populated configuration document whose fields may be
    individually unset": the map from the JSON names of its set fields to
    their values. *)

Abbreviation StolonSpec := (gmap string json) (only parsing).

(** Modelled from the spec: [cluster.ClusterData] is declared outside
    [store.go]; it "holds, among other global fields, the superuser
    credentials (username, password, auth method) and the authoritative
    Spec", which are the fields the store reads and writes.  [cdStolonSpec]
    is the field [StolonSpec] of the Go struct, a pointer. *)
Record ClusterData : Type := {
  PgSuUsername : string;
  PgSuPassword : string;
  PgSuAuthMethod : string;
  cdStolonSpec : option StolonSpec
}.

(** Modelled from the spec: [cluster.Master] is declared outside [store.go];
    it is "a leader descriptor for one replication group (network address,
    port)". *)
Record Master : Type := {
  ListenAddress : string;
  Port : string
}.

Definition ClusterData_zero : ClusterData :=
  {| PgSuUsername := ""; PgSuPassword := ""; PgSuAuthMethod := "";
     cdStolonSpec := None |}.

Definition ClusterData_names : list string :=
  ["PgSuUsername"; "PgSuPassword"; "PgSuAuthMethod"; "StolonSpec"].

(** [cldata.StolonSpec = newspec] *)
Definition set_StolonSpec (cd : ClusterData) (s : option StolonSpec) : ClusterData :=
  {| PgSuUsername := PgSuUsername cd; PgSuPassword := PgSuPassword cd;
     PgSuAuthMethod := PgSuAuthMethod cd; cdStolonSpec := s |}.

(** ** The world outside the process

    [KVPair] is declared in [store.go].  Its value is a byte slice; the
    representation of byte slices is fixed by the interface below, so the
    records take it as a parameter. *)
Record KVPairOf (bytes : Type) : Type := {
  Key : string;
  Value : bytes;
  LastIndex : Z
}.

Arguments Key {bytes} _.
Arguments Value {bytes} _.
Arguments LastIndex {bytes} _.

(** One call of the group-update collaborator, as observed from the store:
    its arguments and the error it returned. *)
Record StolonCallOf (RepGroup : Type) : Type := {
  call_rg : option RepGroup;
  call_rgid : Z;
  call_patch : bool;
  call_spec : option StolonSpec;
  call_err : option error
}.

Arguments call_rg {RepGroup} _.
Arguments call_rgid {RepGroup} _.
Arguments call_patch {RepGroup} _.
Arguments call_spec {RepGroup} _.
Arguments call_err {RepGroup} _.

(** The state outside the process: the documents in etcd with the store's
    revision counter, the failures the backend is going to report (one entry
    per request, none when the list is exhausted), the replication groups'
    own stores, and the log of the calls made to the collaborator. *)
Record WorldOf (bytes RepGroup Groups : Type) : Type := {
  kv : gmap string (KVPairOf bytes);
  revision : Z;
  faults : list (option error);
  groups : Groups;
  calls : list (StolonCallOf RepGroup)
}.

Arguments kv {bytes RepGroup Groups} _.
Arguments revision {bytes RepGroup Groups} _.
Arguments faults {bytes RepGroup Groups} _.
Arguments groups {bytes RepGroup Groups} _.
Arguments calls {bytes RepGroup Groups} _.

(** ** What the store is linked against

    Everything [store.go] uses and does not define, gathered in one interface.

    - The wire format.  Stored values and the intermediate results of the
      merge are byte slices holding JSON text.  The text syntax is left
      abstract: [json_encode] is the printer and [json_decode] the parser of
      [encoding/json], which fails on bytes that are not JSON.
    - The schema of the spec type: the JSON name and the [omitempty] tag of
      each field of [cluster.StolonSpec], in declaration order, and the merge
      keys of its list fields.
    - The directories, maps from group id to a pointer (a map can be nil):
      their element types are declared outside this file, so their JSON codecs
      are taken as given.
    - The replication groups' side of the package: the state of the groups'
      own stores, [StolonUpdate], [NewStolonStore] and the group store's
      [GetMaster], acting on that state.
    - The client constructor of the etcd library (nil error on success).
    - The order in which [range] visits a map, which Go does not specify. *)

Class Env : Type := {
  bytes : Type;
  json_encode : json -> bytes;
  json_decode : bytes -> option json;

  StolonSpec_fields : list (string * bool);
  mergeKey : string -> option string;

  RepGroup : Type;
  json_Unmarshal_RepGroups :
    bytes -> option (gmap Z (option RepGroup)) * option error;
  json_Marshal_RepGroups :
    option (gmap Z (option RepGroup)) -> bytes * option error;
  json_Marshal_Masters :
    option (gmap Z (option Master)) -> bytes * option error;

  Groups : Type;
  StolonUpdate :
    option RepGroup -> Z -> bool -> option StolonSpec -> Groups
    -> option error * Groups;
  StolonStore : Type;
  NewStolonStore : option RepGroup -> Groups -> option StolonStore * option error;
  StolonStore_GetMaster :
    option StolonStore -> Groups -> option Master * option error;

  etcdclientv3_New : list string -> option error;

  range_order : gmap Z (option RepGroup) -> list (Z * option RepGroup)
}.

(** The records at the types of the interface in scope. *)
Abbreviation KVPair := (KVPairOf bytes) (only parsing).
Abbreviation StolonCall := (StolonCallOf RepGroup) (only parsing).
Abbreviation World := (WorldOf bytes RepGroup Groups) (only parsing).

Section Store.

Context `{Env}.

(** *** [json.Marshal] and [json.Unmarshal] at the types of the store *)

Definition StolonSpec_names : list string := map fst StolonSpec_fields.

Definition StolonSpec_to_json (s : option StolonSpec) : json :=
  match s with
  | None => JNull
  | Some m => JObj (encode_struct StolonSpec_fields m)
  end.

(** Decoding into a [*StolonSpec] that currently holds [cur]: null sets the
    pointer to nil, an object is decoded into the struct pointed to (a new one
    when the pointer is nil), anything else is a type error. *)
Definition StolonSpec_of_json (cur : option StolonSpec) (d : json)
    : option StolonSpec * option error :=
  match d with
  | JNull => (None, None)
  | JObj ms => (Some (decode_struct StolonSpec_names (default ∅ cur) ms), None)
  | _ => (cur, Some (UnmarshalTypeError "StolonSpec"))
  end.

Definition json_Marshal_StolonSpec (s : option StolonSpec) : bytes * option error :=
  (json_encode (StolonSpec_to_json s), None).

(** [var newspec *cluster.StolonSpec; json.Unmarshal(b, &newspec)] *)
Definition json_Unmarshal_StolonSpec (b : bytes) : option StolonSpec * option error :=
  match json_decode b with
  | None => (None, Some SyntaxError)
  | Some d => StolonSpec_of_json None d
  end.

Definition ClusterData_to_json (c : option ClusterData) : json :=
  match c with
  | None => JNull
  | Some cd =>
      JObj [("PgSuUsername", JStr (PgSuUsername cd));
            ("PgSuPassword", JStr (PgSuPassword cd));
            ("PgSuAuthMethod", JStr (PgSuAuthMethod cd));
            ("StolonSpec", StolonSpec_to_json (cdStolonSpec cd))]
  end.

(** A string field takes a JSON string, is left alone by null and rejects
    anything else; the decoder keeps the first type error and goes on. *)
Definition string_of_json (field : string) (cur : string) (v : json)
    : string * option error :=
  match v with
  | JStr s => (s, None)
  | JNull => (cur, None)
  | _ => (cur, Some (UnmarshalTypeError field))
  end.

Definition first_error (e1 e2 : option error) : option error :=
  match e1 with Some _ => e1 | None => e2 end.

Definition ClusterData_member (acc : ClusterData * option error)
    (kv : string * json) : ClusterData * option error :=
  let '(cd, err) := acc in
  let '(k, v) := kv in
  match match_field ClusterData_names k with
  | Some f =>
      if String.eqb f "PgSuUsername" then
        let '(s, e) := string_of_json f (PgSuUsername cd) v in
        ({| PgSuUsername := s; PgSuPassword := PgSuPassword cd;
            PgSuAuthMethod := PgSuAuthMethod cd;
            cdStolonSpec := cdStolonSpec cd |}, first_error err e)
      else if String.eqb f "PgSuPassword" then
        let '(s, e) := string_of_json f (PgSuPassword cd) v in
        ({| PgSuUsername := PgSuUsername cd; PgSuPassword := s;
            PgSuAuthMethod := PgSuAuthMethod cd;
            cdStolonSpec := cdStolonSpec cd |}, first_error err e)
      else if String.eqb f "PgSuAuthMethod" then
        let '(s, e) := string_of_json f (PgSuAuthMethod cd) v in
        ({| PgSuUsername := PgSuUsername cd; PgSuPassword := PgSuPassword cd;
            PgSuAuthMethod := s;
            cdStolonSpec := cdStolonSpec cd |}, first_error err e)
      else
        let '(s, e) := StolonSpec_of_json (cdStolonSpec cd) v in
        (set_StolonSpec cd s, first_error err e)
  | None => acc
  end.

(** [json.Unmarshal(b, cldata)] for [cldata] pointing to the struct [cur]:
    the decoded struct and the error. *)
Definition ClusterData_of_json (cur : ClusterData) (d : json)
    : ClusterData * option error :=
  match d with
  | JNull => (cur, None)
  | JObj ms => fold_left ClusterData_member ms (cur, None)
  | _ => (cur, Some (UnmarshalTypeError "ClusterData"))
  end.

Definition json_Marshal_ClusterData (c : option ClusterData) : bytes * option error :=
  (json_encode (ClusterData_to_json c), None).

Definition json_Unmarshal_ClusterData (b : bytes) (cur : ClusterData)
    : ClusterData * option error :=
  match json_decode b with
  | None => (cur, Some SyntaxError)
  | Some d => ClusterData_of_json cur d
  end.


(** *** The backing store and the collaborators *)

Definition next_fault (w : World) : option error * World :=
  match faults w with
  | [] => (None, w)
  | f :: fs =>
      (f, {| kv := kv w; revision := revision w; faults := fs;
             groups := groups w; calls := calls w |})
  end.

(** Modelled from the spec: [EtcdV3Store.Get] is defined in another file of
    the package.  After section 4.1 and section 6, a read returns the document
    and its version token, or no pair and no error when the key is missing,
    or the backend's error. *)
Definition EtcdV3Store_Get (key : string) (w : World)
    : (option KVPair * option error) * World :=
  let '(f, w1) := next_fault w in
  match f with
  | Some e => ((None, Some e), w1)
  | None => ((kv w1 !! key, None), w1)
  end.

(** Modelled from the spec: [EtcdV3Store.Put] is defined in another file of
    the package.  A write stores the bytes under the key, with the store's
    next revision as version token, or returns the backend's error. *)
Definition EtcdV3Store_Put (key : string) (value : bytes) (w : World)
    : option error * World :=
  let '(f, w1) := next_fault w in
  match f with
  | Some e => (Some e, w1)
  | None =>
      let rev := ((revision w1 + 1) mod 2 ^ 64)%Z in
      (None,
       {| kv := <[key := {| Key := key; Value := value; LastIndex := rev |}]> (kv w1);
          revision := rev; faults := faults w1;
          groups := groups w1; calls := calls w1 |})
  end.

(** Modelled from the spec: [EtcdV3Store.Close] is defined in another file
    of the package; it returns Ok or the backend's error. *)
Definition EtcdV3Store_Close (w : World) : option error * World :=
  next_fault w.

(** The collaborator call with its entry in the log. *)
Definition StolonUpdate_call (rg : option RepGroup) (rgid : Z) (patch : bool)
    (spec : option StolonSpec) (w : World) : option error * World :=
  let '(err, g) := StolonUpdate rg rgid patch spec (groups w) in
  (err,
   {| kv := kv w; revision := revision w; faults := faults w; groups := g;
      calls := calls w ++ [{| call_rg := rg; call_rgid := rgid;
                              call_patch := patch; call_spec := spec;
                              call_err := err |}] |}).

(** *** The cluster store *)

Record clusterStoreImpl : Type := {
  storePath : string
}.

Definition NewClusterStore (endpoints cluster_name : string)
    : option clusterStoreImpl * option error :=
  let endpointss := strings_Split endpoints ","%char in
  match etcdclientv3_New endpointss with
  | Some err => (None, Some err)
  | None =>
      let storePath := filepath.Join ["hodgepodge"; cluster_name] in
      (Some {| storePath := storePath |}, None)
  end.

(** Get global cluster data *)
Definition GetClusterData (cs : clusterStoreImpl) (w : World)
    : (option ClusterData * option KVPair * option error) * World :=
  let cldata := ClusterData_zero in
  let path := filepath.Join [storePath cs; "clusterdata"] in
  let '((kvp, err), w1) := EtcdV3Store_Get path w in
  match err with
  | Some e => ((None, None, Some e), w1)
  | None =>
      match kvp with
      | None => ((None, None, None), w1)
      | Some p =>
          let '(cldata, err) := json_Unmarshal_ClusterData (Value p) cldata in
          match err with
          | Some e => ((None, None, Some e), w1)
          | None => ((Some cldata, Some p, None), w1)
          end
      end
  end.

(** Put global cluster data *)
Definition PutClusterData (cs : clusterStoreImpl) (cldata : option ClusterData)
    (w : World) : option error * World :=
  let '(cldataj, err) := json_Marshal_ClusterData cldata in
  match err with
  | Some e => (Some e, w)
  | None =>
      let path := filepath.Join [storePath cs; "clusterdata"] in
      EtcdV3Store_Put path cldataj w
  end.

(** Get all Stolons connection info *)
Definition GetRepGroups (cs : clusterStoreImpl) (w : World)
    : (option (gmap Z (option RepGroup)) * option KVPair * option error) * World :=
  let path := filepath.Join [storePath cs; "repgroups"] in
  let '((kvp, err), w1) := EtcdV3Store_Get path w in
  match err with
  | Some e => ((None, None, Some e), w1)
  | None =>
      match kvp with
      | None => ((None, None, None), w1)
      | Some p =>
          let '(rgdata, err) := json_Unmarshal_RepGroups (Value p) in
          match err with
          | Some e => ((None, None, Some e), w1)
          | None => ((rgdata, Some p, None), w1)
          end
      end
  end.

(** Put replication groups info *)
Definition PutRepGroups (cs : clusterStoreImpl)
    (rgs : option (gmap Z (option RepGroup))) (w : World) : option error * World :=
  let '(rgsj, err) := json_Marshal_RepGroups rgs in
  match err with
  | Some e => (Some e, w)
  | None =>
      let path := filepath.Join [storePath cs; "repgroups"] in
      EtcdV3Store_Put path rgsj w
  end.

(** Save current masters for each repgroup *)
Definition PutMasters (cs : clusterStoreImpl)
    (masters : option (gmap Z (option Master))) (w : World) : option error * World :=
  let '(mastersj, err) := json_Marshal_Masters masters in
  match err with
  | Some e => (Some e, w)
  | None =>
      let path := filepath.Join [storePath cs; "masters"] in
      EtcdV3Store_Put path mastersj w
  end.

Definition Close (cs : clusterStoreImpl) (w : World) : option error * World :=
  EtcdV3Store_Close w.

(** *** The spec merge *)

(** Modelled from the spec: the decoding step of
    [strategicpatch.StrategicMergePatch].  Either side must parse to an object
    (or to null, which stands for the empty object); a malformed document
    fails. *)
Definition handleUnmarshal (j : bytes) : option (list (string * json)) :=
  match json_decode j with
  | Some (JObj o) => Some o
  | Some JNull => Some []
  | _ => None
  end.

(** Modelled from the spec: [strategicpatch.StrategicMergePatch] on byte
    slices, "merge(base, patch) -> Document | Error": the encoding of the
    merged object, or nil bytes and the package's bad document error. *)
Definition StrategicMergePatch (original patch : bytes) : option bytes * option error :=
  match handleUnmarshal original, handleUnmarshal patch with
  | Some originalMap, Some patchMap =>
      (Some (json_encode (JObj (mergeMap mergeKey originalMap patchMap))), None)
  | _, _ => (None, Some ErrBadJSONDoc)
  end.

Definition patchClusterSpec (spec patch : option StolonSpec)
    : option StolonSpec * option error :=
  let '(specj, err) := json_Marshal_StolonSpec spec in
  match err with
  | Some e => (None, Some (Errorf "failed to marshal cluster spec: %v" e))
  | None =>
      let '(patchj, err) := json_Marshal_StolonSpec patch in
      match err with
      | Some e => (None, Some (Errorf "failed to marshal cluster spec: %v" e))
      | None =>
          match StrategicMergePatch specj patchj with
          | (_, Some e) =>
              (None, Some (Errorf "failed to merge patch cluster spec: %v" e))
          | (None, None) =>
              (* json.Unmarshal of a nil slice: unexpected end of JSON input *)
              (None, Some (Errorf "failed to unmarshal patched cluster spec: %v" SyntaxError))
          | (Some newspecj, None) =>
              let '(newspec, err) := json_Unmarshal_StolonSpec newspecj in
              match err with
              | Some e =>
                  (None, Some (Errorf "failed to unmarshal patched cluster spec: %v" e))
              | None => (newspec, None)
              end
          end
      end
  end.

(** *** Broadcast new stolon spec to all stolons and update it in store *)

(** [for rgid, rg := range rgs { if err = StolonUpdate(rg, rgid, true, newspec);
    err != nil { return err } }] over the entries in the order of the range. *)
Fixpoint fanout (order : list (Z * option RepGroup)) (newspec : option StolonSpec)
    (w : World) : option error * World :=
  match order with
  | [] => (None, w)
  | (rgid, rg) :: rest =>
      (* we always patch to preserve unspecified stolon defaults, e.g.
         initMode is required *)
      let '(err, w1) := StolonUpdate_call rg rgid true newspec w in
      match err with
      | Some e => (Some e, w1)
      | None => fanout rest newspec w1
      end
  end.

(** Ranging over a nil map visits nothing. *)
Definition range (rgs : option (gmap Z (option RepGroup)))
    : list (Z * option RepGroup) :=
  match rgs with
  | None => []
  | Some m => range_order m
  end.

Definition UpdateStolonSpec (cs : clusterStoreImpl) (spec : option StolonSpec)
    (patch : bool) (w : World) : exec (option error) * World :=
  let '((cldata, _, err), w1) := GetClusterData cs w in
  match err with
  | Some e => (Returns (Some e), w1)
  | None =>
      match cldata with
      | None => (Panics nil_dereference, w1)   (* cldata.StolonSpec *)
      | Some cd =>
          let currentspec := cdStolonSpec cd in
          let '(newspec, err) :=
            if patch then patchClusterSpec currentspec spec else (spec, None) in
          match err with
          | Some e => (Returns (Some e), w1)
          | None =>
              let '((rgs, _, err), w2) := GetRepGroups cs w1 in
              match err with
              | Some e => (Returns (Some e), w2)
              | None =>
                  let '(err, w3) := fanout (range rgs) newspec w2 in
                  match err with
                  | Some e => (Returns (Some e), w3)
                  | None =>
                      let cd' := set_StolonSpec cd newspec in
                      let '(err, w4) := PutClusterData cs (Some cd') w3 in
                      (Returns err, w4)
                  end
              end
          end
      end
  end.

(** *** Get current connstr for this rg as map of libpq options

    The deferred [ss.Close()] runs on every exit after the store was opened
    and its result is dropped; the function returns nothing but the map and
    the error. *)
Definition GetSuConnstrMap (rg : option RepGroup) (cldata : option ClusterData)
    (g : Groups) : exec (option (gmap string string) * option error) :=
  let '(ss, err) := NewStolonStore rg g in
  match err with
  | Some e => Returns (None, Some e)
  | None =>
      let '(master, err) := StolonStore_GetMaster ss g in
      match err with
      | Some e => Returns (None, Some e)
      | None =>
          match cldata, master with
          | Some cd, Some m =>
              let cp : gmap string string :=
                <["port" := Port m]>
                  (<["host" := ListenAddress m]>
                     (<["dbname" := "postgres"]>
                        (<["user" := PgSuUsername cd]> ∅))) in
              let cp :=
                if negb (String.eqb (PgSuAuthMethod cd) "trust")
                then <["password" := PgSuPassword cd]> cp
                else cp in
              Returns (Some cp, None)
          | _, _ => Panics nil_dereference   (* cldata.PgSuUsername, master.ListenAddress *)
          end
      end
  end.

(** *** The merge on pointers

    [patchClusterSpec] receives and returns pointers.  To state what it does
    to the objects its arguments point to, the same body is read over a heap
    of spec objects: [json.Marshal] reads the object behind a pointer (a nil
    pointer is written as null), the patch package works on the byte slices,
    and [json.Unmarshal] into the nil pointer [newspec] allocates the struct
    it fills. *)

Definition loc : Type := positive.

Definition deref (h : gmap loc StolonSpec) (p : option loc) : option StolonSpec :=
  match p with
  | Some l => h !! l
  | None => None
  end.

Definition json_Marshal_ptr (h : gmap loc StolonSpec) (p : option loc)
    : bytes * option error :=
  json_Marshal_StolonSpec (deref h p).

Definition json_Unmarshal_ptr (b : bytes) (h : gmap loc StolonSpec)
    : (option loc * option error) * gmap loc StolonSpec :=
  let '(v, err) := json_Unmarshal_StolonSpec b in
  match v with
  | Some s =>
      let l := fresh (dom h) in
      ((Some l, err), <[l := s]> h)
  | None => ((None, err), h)
  end.

Definition patchClusterSpec_ptr (spec patch : option loc) (h : gmap loc StolonSpec)
    : (option loc * option error) * gmap loc StolonSpec :=
  let '(specj, err) := json_Marshal_ptr h spec in
  match err with
  | Some e => ((None, Some (Errorf "failed to marshal cluster spec: %v" e)), h)
  | None =>
      let '(patchj, err) := json_Marshal_ptr h patch in
      match err with
      | Some e => ((None, Some (Errorf "failed to marshal cluster spec: %v" e)), h)
      | None =>
          match StrategicMergePatch specj patchj with
          | (_, Some e) =>
              ((None, Some (Errorf "failed to merge patch cluster spec: %v" e)), h)
          | (None, None) =>
              ((None, Some (Errorf "failed to unmarshal patched cluster spec: %v" SyntaxError)), h)
          | (Some newspecj, None) =>
              let '((newspec, err), h1) := json_Unmarshal_ptr newspecj h in
              match err with
              | Some e =>
                  ((None, Some (Errorf "failed to unmarshal patched cluster spec: %v" e)), h1)
              | None => ((newspec, None), h1)
              end
          end
      end
  end.

End Store.

(** ** A concrete deployment

    One instance of the interface, used to run the store on concrete inputs:
    byte slices are either a JSON document or junk; the spec type has the two
    fields [a] and [b] of the design's end-to-end scenario; a replication
    group is known by its id; the groups' side keeps each group's spec and
    master and can be made to fail for chosen groups or for a number of
    calls. *)

Module Example.

Record groups_state : Type := {
  broken : list Z;            (* groups whose update always fails *)
  outage : nat;               (* number of coming updates that fail *)
  gspecs : gmap Z json;       (* each group's own stored spec *)
  masters : gmap Z Master     (* each group's recorded leader *)
}.

Definition group_key (k : string) : option Z :=
  if String.eqb k "1" then Some 1%Z
  else if String.eqb k "2" then Some 2%Z
  else if String.eqb k "3" then Some 3%Z
  else None.

Definition repgroup_member
    (acc : gmap Z (option Z) * option error) (kv : string * json)
    : gmap Z (option Z) * option error :=
  let '(m, err) := acc in
  let '(k, v) := kv in
  match group_key k with
  | None => (m, first_error err (Some (UnmarshalTypeError "map key")))
  | Some id =>
      match v with
      | JNull => (<[id := None]> m, err)
      | JNum n => (<[id := Some n]> m, err)
      | _ => (m, first_error err (Some (UnmarshalTypeError "RepGroup")))
      end
  end.

Definition unmarshal_repgroups (b : option json)
    : option (gmap Z (option Z)) * option error :=
  match b with
  | None => (None, Some SyntaxError)
  | Some JNull => (None, None)
  | Some (JObj ms) =>
      let '(m, err) := fold_left repgroup_member ms (∅, None) in
      (Some m, err)
  | Some _ => (None, Some (UnmarshalTypeError "map"))
  end.

Definition group_name (id : Z) : string :=
  if (id =? 1)%Z then "1" else if (id =? 2)%Z then "2" else "3".

Definition marshal_repgroups (rgs : option (gmap Z (option Z)))
    : option json * option error :=
  match rgs with
  | None => (Some JNull, None)
  | Some m =>
      (Some (JObj (map (fun '(id, rg) =>
                          (group_name id,
                           match rg with Some n => JNum n | None => JNull end))
                       (map_to_list m))), None)
  end.

Definition marshal_masters (ms : option (gmap Z (option Master)))
    : option json * option error :=
  match ms with
  | None => (Some JNull, None)
  | Some m =>
      (Some (JObj (map (fun '(id, ma) =>
                          (group_name id,
                           match ma with
                           | Some x => JObj [("ListenAddress", JStr (ListenAddress x));
                                             ("Port", JStr (Port x))]
                           | None => JNull
                           end))
                       (map_to_list m))), None)
  end.

Definition fields : list (string * bool) := [("a", true); ("b", true)].

Definition no_merge_key (field : string) : option string := None.

Definition spec_doc (s : option StolonSpec) : json :=
  match s with
  | None => JNull
  | Some m => JObj (encode_struct fields m)
  end.

(** The group's update: fails for a broken group and during an outage;
    otherwise merges the spec into the group's own (patch mode) or replaces
    it. *)
Definition stolon_update (rg : option Z) (rgid : Z) (patch : bool)
    (spec : option StolonSpec) (g : groups_state) : option error * groups_state :=
  if existsb (Z.eqb rgid) (broken g) then
    (Some (CollaboratorError "group update failed"), g)
  else
    match outage g with
    | S n =>
        (Some (CollaboratorError "group store unreachable"),
         {| broken := broken g; outage := n; gspecs := gspecs g; masters := masters g |})
    | O =>
        let new :=
          match patch, gspecs g !! rgid, spec_doc spec with
          | true, Some (JObj old), JObj p => JObj (mergeMap no_merge_key old p)
          | _, _, d => d
          end in
        (None,
         {| broken := broken g; outage := O;
            gspecs := <[rgid := new]> (gspecs g); masters := masters g |})
    end.

Definition new_stolon_store (rg : option Z) (g : groups_state)
    : option Z * option error :=
  match rg with
  | Some id => (Some id, None)
  | None => (None, Some (CollaboratorError "no replication group"))
  end.

Definition get_master (ss : option Z) (g : groups_state)
    : option Master * option error :=
  match ss with
  | Some id => (masters g !! id, None)
  | None => (None, Some (CollaboratorError "no store"))
  end.

#[export] Instance env : Env := {|
  bytes := option json;
  json_encode := Some;
  json_decode := fun b => b;
  StolonSpec_fields := fields;
  mergeKey := no_merge_key;
  RepGroup := Z;
  json_Unmarshal_RepGroups := unmarshal_repgroups;
  json_Marshal_RepGroups := marshal_repgroups;
  json_Marshal_Masters := marshal_masters;
  Groups := groups_state;
  StolonUpdate := stolon_update;
  StolonStore := Z;
  NewStolonStore := new_stolon_store;
  StolonStore_GetMaster := get_master;
  etcdclientv3_New := fun _ => None;
  range_order := fun m => map_to_list m
|}.

(** The store of cluster [c1]. *)
Definition cs : clusterStoreImpl := {| storePath := "hodgepodge/c1" |}.

Definition doc (d : json) (rev : Z) (key : string) : KVPair :=
  {| Key := key; Value := Some d; LastIndex := rev |}.

(** Spec [{a:1, b:{x:1}}] and the patch [{b:{x:2}}]. *)
Definition spec_old : StolonSpec :=
  <["b" := JObj [("x", JNum 1)]]> (<["a" := JNum 1]> ∅).

Definition spec_patch : StolonSpec :=
  <["b" := JObj [("x", JNum 2)]]> ∅.

Definition cldata_old : ClusterData :=
  {| PgSuUsername := "postgres"; PgSuPassword := "secret";
     PgSuAuthMethod := "md5"; cdStolonSpec := Some spec_old |}.

Definition healthy_groups : groups_state :=
  {| broken := []; outage := O; gspecs := ∅;
     masters := {[ 1%Z := {| ListenAddress := "10.0.0.1"; Port := "5432" |} ]} |}.

Definition directory : json :=
  JObj [("1", JNum 1); ("2", JNum 2); ("3", JNum 3)].

(** A bootstrapped cluster with three groups. *)
Definition world_of (g : groups_state) (fs : list (option error)) : World :=
  {| kv := <["hodgepodge/c1/repgroups" := doc directory 2 "hodgepodge/c1/repgroups"]>
             (<["hodgepodge/c1/clusterdata" :=
                  doc (ClusterData_to_json (Some cldata_old)) 1 "hodgepodge/c1/clusterdata"]> ∅);
     revision := 2; faults := fs; groups := g; calls := [] |}.

Definition world0 : World := world_of healthy_groups [].

(** A store nobody has written to. *)
Definition empty_world : World :=
  {| kv := ∅; revision := 0; faults := []; groups := healthy_groups; calls := [] |}.

(** Group 2 is broken. *)
Definition world_broken : World :=
  world_of {| broken := [2%Z]; outage := O; gspecs := ∅;
              masters := masters healthy_groups |} [].


(** The push to group 2 that fails in [world_broken]. *)
Definition failing_push : StolonCall :=
  {| call_rg := Some 2%Z; call_rgid := 2; call_patch := true;
     call_spec := fst (patchClusterSpec (Some spec_old) (Some spec_patch));
     call_err := Some (CollaboratorError "group update failed") |}.

(** A spec document with a member the schema does not have. *)
Definition base_with_unknown : list (string * json) :=
  [("a", JNum 1); ("zz", JNum 7)].

(** Cluster data under trust authentication. *)
Definition cldata_trust : ClusterData :=
  {| PgSuUsername := "postgres"; PgSuPassword := "secret";
     PgSuAuthMethod := "trust"; cdStolonSpec := None |}.

Definition master1 : Master := {| ListenAddress := "10.0.0.1"; Port := "5432" |}.




(** A store that holds the empty object as cluster data. *)
Definition world_empty_doc : World :=
  {| kv := <["hodgepodge/c1/clusterdata" :=
               doc (JObj []) 1 "hodgepodge/c1/clusterdata"]> ∅;
     revision := 1; faults := []; groups := healthy_groups; calls := [] |}.




(** The cluster data is stored, the directory of groups is not. *)
Definition world_no_directory : World :=
  {| kv := <["hodgepodge/c1/clusterdata" :=
              doc (ClusterData_to_json (Some cldata_old)) 1 "hodgepodge/c1/clusterdata"]> ∅;
     revision := 1; faults := []; groups := healthy_groups; calls := [] |}.

(** A directory of three groups as the caller of [PutRepGroups] holds it. *)
Definition three_groups : gmap Z (option Z) :=
  <[1%Z := Some 1%Z]> (<[2%Z := Some 2%Z]> (<[3%Z := Some 3%Z]> ∅)).


Definition after_put_groups : World :=
  snd (PutRepGroups cs (Some three_groups) empty_world).

Definition after_patch : World :=
  snd (UpdateStolonSpec cs (Some spec_patch) true world0).

End Example.

(** ** Vocabulary of the statements *)

(** What the member [k] of the patch leaves under [k], given what the base
    has there. *)
Definition merged_member (mk : string -> option string) (k : string)
    (ov : option json) (pv : json) : option json :=
  if is_null pv then None
  else match ov with
       | None => Some pv
       | Some o => Some (mergeValue mk k o pv)
       end.

(** The [omitempty] tag of a field of the schema. *)
Fixpoint field_tag (fields : list (string * bool)) (f : string) : option bool :=
  match fields with
  | [] => None
  | (f1, omitempty) :: fields' =>
      if String.eqb f f1 then Some omitempty else field_tag fields' f
  end.

(** The value a field is set to; a field holding null counts as unset. *)
Definition set_value (m : gmap string json) (f : string) : option json :=
  match m !! f with
  | Some v => if is_null v then None else Some v
  | None => None
  end.

Definition non_null (o : option json) : option json :=
  match o with
  | Some v => if is_null v then None else Some v
  | None => None
  end.

(** A plain path element: not empty, neither [.] nor [..], and with no
    separator in it. *)
Definition plain_chars (e : list ascii) : Prop :=
  e <> [] /\ e <> ["."%char] /\ e <> ["."%char; "."%char]
  /\ forallb (fun c => negb (filepath.IsPathSeparator c)) e = true.

Definition plain_element (e : string) : Prop :=
  plain_chars (list_ascii_of_string e).

(** Path elements joined with the separator. *)
Fixpoint join_elems (es : list (list ascii)) : list ascii :=
  match es with
  | [] => []
  | [e] => e
  | e :: es' => e ++ filepath.Separator :: join_elems es'
  end.

(** Strings joined with a separator, [strings.Join]. *)
Fixpoint join_with (sep : string) (pieces : list string) : string :=
  match pieces with
  | [] => ""
  | [p] => p
  | p :: pieces' => p ++ sep ++ join_with sep pieces'
  end.

(** The sub-paths of a cluster's three documents. *)
Definition sub_paths : list string := ["clusterdata"; "repgroups"; "masters"].

Section Vocabulary.

Context `{Env}.

(** The members of the JSON object a spec pointer is written as; nil has
    none. *)
Definition spec_members (s : option StolonSpec) : list (string * json) :=
  match s with
  | None => []
  | Some m => encode_struct StolonSpec_fields m
  end.

(** The calls a run added to the log. *)
Definition new_calls (w w' : World) : list StolonCall :=
  drop (length (calls w)) (calls w').

(** The log entry of one push of [newspec] in patch mode. *)
Definition push (newspec : option StolonSpec) (err : option error)
    (entry : Z * option RepGroup) : StolonCall :=
  {| call_rg := snd entry; call_rgid := fst entry; call_patch := true;
     call_spec := newspec; call_err := err |}.

(** The range over a map visits every entry of the map once. *)
Definition range_visits_all : Prop :=
  forall m, Permutation (range_order m) (map_to_list m).

(** The entries of a directory; a nil map has none. *)
Definition entries (rgs : option (gmap Z (option RepGroup)))
    : list (Z * option RepGroup) :=
  match rgs with
  | None => []
  | Some m => map_to_list m
  end.


(** The backend serves the next request. *)
Definition backend_serves (w : World) : Prop := hd None (faults w) = None.

(** The stored bytes under every key. *)
Definition stored (w : World) (key : string) : option bytes :=
  Value <$> kv w !! key.

End Vocabulary.

(** The keys of a cluster's three documents. *)
Abbreviation cluster_key cluster_name sub :=
  (filepath.Join [filepath.Join ["hodgepodge"; cluster_name]; sub]) (only parsing).

(** * Properties *)

(** ** Objects as association lists *)

Lemma obj_get_set_eq k v o : obj_get k (obj_set k v o) = Some v.
Proof.
  induction o as [|[k' v'] o IH]; simpl.
  - by rewrite String.eqb_refl.
  - destruct (String.eqb k k') eqn:E; simpl.
    + by rewrite String.eqb_refl.
    + by rewrite E.
Qed.

Lemma obj_get_set_ne k k' v o :
  k <> k' -> obj_get k' (obj_set k v o) = obj_get k' o.
Proof.
  intros Hne. induction o as [|[k1 v1] o IH]; simpl.
  - destruct (String.eqb_spec k' k); congruence.
  - destruct (String.eqb_spec k k1) as [->|]; simpl.
    + destruct (String.eqb_spec k' k1); congruence.
    + destruct (String.eqb_spec k' k1); congruence.
Qed.

Lemma obj_get_del_eq k o : obj_get k (obj_del k o) = None.
Proof.
  induction o as [|[k1 v1] o IH]; simpl; [done|].
  destruct (String.eqb k k1) eqn:E; simpl; [done|]. by rewrite E.
Qed.

Lemma obj_get_del_ne k k' o :
  k <> k' -> obj_get k' (obj_del k o) = obj_get k' o.
Proof.
  intros Hne. induction o as [|[k1 v1] o IH]; simpl; [done|].
  destruct (String.eqb_spec k k1) as [->|]; simpl.
  - destruct (String.eqb_spec k' k1); congruence.
  - destruct (String.eqb_spec k' k1); congruence.
Qed.

Lemma obj_get_None_keys k o : obj_get k o = None <-> ~ In k (map fst o).
Proof.
  induction o as [|[k1 v1] o IH]; simpl; [tauto|].
  destruct (String.eqb_spec k k1) as [->|Hne].
  - split; [done|]. intros Hn. exfalso. apply Hn. by left.
  - rewrite IH. split; [intros Hn [?|?]; [congruence|tauto] | tauto].
Qed.

Lemma obj_get_Some_keys k v o : obj_get k o = Some v -> In k (map fst o).
Proof.
  intros Hg. destruct (in_dec string_dec k (map fst o)) as [|Hn]; [done|].
  apply obj_get_None_keys in Hn. congruence.
Qed.

Lemma obj_set_keys k v o x :
  In x (map fst (obj_set k v o)) -> x = k \/ In x (map fst o).
Proof.
  induction o as [|[k1 v1] o IH]; simpl; [intuition congruence|].
  destruct (String.eqb_spec k k1) as [->|]; simpl; intuition congruence.
Qed.

Lemma obj_del_keys k o x :
  In x (map fst (obj_del k o)) -> In x (map fst o).
Proof.
  induction o as [|[k1 v1] o IH]; simpl; [tauto|].
  destruct (String.eqb_spec k k1) as [->|]; simpl; tauto.
Qed.

Lemma obj_set_NoDup k v o :
  NoDup (map fst o) -> NoDup (map fst (obj_set k v o)).
Proof.
  induction o as [|[k1 v1] o IH]; simpl; intros Hnd.
  - repeat constructor. by intros ?%elem_of_nil.
  - apply NoDup_cons in Hnd as [Hnin Hnd].
    destruct (String.eqb_spec k k1) as [->|Hne]; simpl.
    + by apply NoDup_cons.
    + apply NoDup_cons. split; [|by apply IH].
      intros Hin%list_elem_of_In. apply obj_set_keys in Hin as [->|Hin]; [done|].
      by apply Hnin, list_elem_of_In.
Qed.

Lemma obj_del_NoDup k o :
  NoDup (map fst o) -> NoDup (map fst (obj_del k o)).
Proof.
  induction o as [|[k1 v1] o IH]; simpl; intros Hnd; [done|].
  apply NoDup_cons in Hnd as [Hnin Hnd].
  destruct (String.eqb_spec k k1) as [->|Hne]; simpl; [by apply IH|].
  apply NoDup_cons. split; [|by apply IH].
  intros Hin%list_elem_of_In. apply obj_del_keys in Hin.
  by apply Hnin, list_elem_of_In.
Qed.

(** ** The merge of two objects *)

Section MergeProperties.

Variable mk : string -> option string.

(** The merge of two objects is the fold of [mergeMember] over the patch. *)
Lemma mergeValue_obj field om pf :
  mergeValue mk field (JObj om) (JObj pf) = JObj (mergeMap mk om pf).
Proof.
  unfold mergeMap. simpl. f_equal. revert om.
  induction pf as [|[k pv] pf IH]; intros om; simpl; [done|].
  rewrite IH. f_equal.
Qed.

Lemma mergeValue_not_obj field ov pf :
  (forall om, ov <> JObj om) -> mergeValue mk field ov (JObj pf) = JObj pf.
Proof. intros Hno. destruct ov; simpl; try done. by destruct (Hno members). Qed.

Lemma mergeValue_scalar field ov pv :
  is_scalar pv = true -> mergeValue mk field ov pv = pv.
Proof. by destruct pv. Qed.

Lemma mergeMember_get_ne acc k pv k' :
  k <> k' -> obj_get k' (mergeMember mk acc (k, pv)) = obj_get k' acc.
Proof.
  intros Hne. unfold mergeMember.
  destruct pv; try (destruct (obj_get k acc); by rewrite obj_get_set_ne).
  by rewrite obj_get_del_ne.
Qed.

Lemma mergeMember_get_eq acc k pv :
  obj_get k (mergeMember mk acc (k, pv)) = merged_member mk k (obj_get k acc) pv.
Proof.
  unfold mergeMember, merged_member.
  destruct pv; simpl; try (destruct (obj_get k acc); by rewrite obj_get_set_eq).
  by rewrite obj_get_del_eq.
Qed.

(** A member the patch omits keeps the value of the base. *)
Lemma mergeMap_get_absent om po f :
  obj_get f po = None -> obj_get f (mergeMap mk om po) = obj_get f om.
Proof.
  unfold mergeMap. revert om.
  induction po as [|[k pv] po IH]; intros om Hf; simpl in *; [done|].
  destruct (String.eqb_spec f k) as [->|Hne]; [done|].
  rewrite IH by done. by apply mergeMember_get_ne.
Qed.

(** A member the patch has is merged once. *)
Lemma mergeMap_get_present om po f pv :
  NoDup (map fst po) -> obj_get f po = Some pv ->
  obj_get f (mergeMap mk om po) = merged_member mk f (obj_get f om) pv.
Proof.
  unfold mergeMap. revert om.
  induction po as [|[k v] po IH]; intros om Hnd Hf; simpl in *; [done|].
  apply NoDup_cons in Hnd as [Hnin Hnd].
  destruct (String.eqb_spec f k) as [->|Hne].
  - injection Hf as ->.
    change (fold_left (mergeMember mk) po ?a) with (mergeMap mk a po).
    rewrite mergeMap_get_absent.
    + apply mergeMember_get_eq.
    + apply obj_get_None_keys. by intros ?%list_elem_of_In.
  - rewrite (IH _ Hnd Hf). f_equal. by apply mergeMember_get_ne.
Qed.

Lemma mergeMember_keys acc m x :
  In x (map fst (mergeMember mk acc m)) -> x = fst m \/ In x (map fst acc).
Proof.
  destruct m as [k pv]. unfold mergeMember. simpl.
  destruct pv; try (destruct (obj_get k acc); apply obj_set_keys).
  intros ?%obj_del_keys. by right.
Qed.

Lemma mergeMember_NoDup acc m :
  NoDup (map fst acc) -> NoDup (map fst (mergeMember mk acc m)).
Proof.
  destruct m as [k pv]. unfold mergeMember. intros Hnd.
  destruct pv; try (destruct (obj_get k acc); by apply obj_set_NoDup).
  by apply obj_del_NoDup.
Qed.

Lemma mergeMap_keys om po x :
  In x (map fst (mergeMap mk om po)) -> In x (map fst om) \/ In x (map fst po).
Proof.
  unfold mergeMap. revert om.
  induction po as [|m po IH]; intros om; simpl; [tauto|].
  intros [Hin|Hin]%IH; [|tauto].
  apply mergeMember_keys in Hin. intuition congruence.
Qed.

Lemma mergeMap_NoDup om po :
  NoDup (map fst om) -> NoDup (map fst (mergeMap mk om po)).
Proof.
  unfold mergeMap. revert om.
  induction po as [|m po IH]; intros om Hnd; simpl; [done|].
  by apply IH, mergeMember_NoDup.
Qed.

End MergeProperties.

(** ** Paths through merged documents *)

Lemma wf_json_obj po :
  wf_json (JObj po) <-> NoDup (map fst po) /\ Forall (fun kv => wf_json (snd kv)) po.
Proof.
  simpl. split; intros [Hnd Hall]; (split; [exact Hnd|]); clear Hnd.
  - induction po as [|[k v] po IH]; constructor; simpl in *; tauto.
  - induction po as [|[k v] po IH]; simpl; [done|].
    apply Forall_cons in Hall as [? ?]. split; [done|by apply IH].
Qed.

Lemma wf_json_member po k v :
  wf_json (JObj po) -> obj_get k po = Some v -> wf_json v.
Proof.
  intros [_ Hall]%wf_json_obj Hg.
  induction po as [|[k1 v1] po IH]; simpl in *; [done|].
  apply Forall_cons in Hall as [Hv Hall].
  destruct (String.eqb k k1); [by injection Hg as <-|auto].
Qed.

Lemma wf_json_NoDup po : wf_json (JObj po) -> NoDup (map fst po).
Proof. by intros [? _]%wf_json_obj. Qed.

Lemma omits_at_None path p : omits path p = true -> json_at path p = None.
Proof.
  revert p. induction path as [|k path IH]; intros p; simpl; [done|].
  destruct p; try done. destruct (obj_get k members); [apply IH|done].
Qed.

Lemma json_at_not_obj k path d :
  (forall o, d <> JObj o) -> json_at (k :: path) d = None.
Proof. intros Hno. destruct d; simpl; try done. by destruct (Hno members). Qed.

Section MergePaths.

Variable mk : string -> option string.

(** Testable property 1 at every depth: what the patch omits is the base's. *)
Lemma mergeMap_at_omitted path :
  forall om po,
    wf_json (JObj po) -> omits path (JObj po) = true ->
    json_at path (JObj (mergeMap mk om po)) = json_at path (JObj om).
Proof.
  induction path as [|k path IH]; intros om po Hwf Hom; [done|].
  simpl in Hom. simpl json_at.
  destruct (obj_get k po) as [pv|] eqn:Hk.
  - rewrite (mergeMap_get_present mk om po k pv (wf_json_NoDup _ Hwf) Hk).
    pose proof (wf_json_member _ _ _ Hwf Hk) as Hwfv.
    destruct path as [|k2 path]; [by destruct pv|].
    destruct pv as [| | | | |pf]; try done.
    unfold merged_member. simpl is_null. cbv iota.
    destruct (obj_get k om) as [ov|].
    + destruct ov as [| | | | |om'];
        try (rewrite mergeValue_not_obj by done; by rewrite omits_at_None).
      rewrite mergeValue_obj. by apply IH.
    + by apply omits_at_None.
  - by rewrite mergeMap_get_absent.
Qed.

(** Testable property 2 at every depth: a scalar the patch sets is the
    result's. *)
Lemma mergeMap_at_scalar path :
  forall om po v,
    wf_json (JObj po) -> json_at path (JObj po) = Some v -> is_scalar v = true ->
    json_at path (JObj (mergeMap mk om po)) = Some v.
Proof.
  induction path as [|k path IH]; intros om po v Hwf Hat Hsc.
  - simpl in Hat. injection Hat as <-. done.
  - simpl in Hat. simpl json_at.
    destruct (obj_get k po) as [pv|] eqn:Hk; [|done].
    rewrite (mergeMap_get_present mk om po k pv (wf_json_NoDup _ Hwf) Hk).
    pose proof (wf_json_member _ _ _ Hwf Hk) as Hwfv.
    destruct path as [|k2 path].
    + simpl in Hat. injection Hat as ->. unfold merged_member.
      replace (is_null v) with false by by destruct v.
      destruct (obj_get k om); [|done]. by rewrite mergeValue_scalar.
    + destruct pv as [| | | | |pf]; try done.
      unfold merged_member. simpl is_null. cbv iota.
      destruct (obj_get k om) as [ov|]; [|done].
      destruct ov as [| | | | |om'];
        try (by rewrite mergeValue_not_obj).
      rewrite mergeValue_obj. by apply IH.
Qed.

End MergePaths.

(** ** Structs and their JSON objects *)

#[local] Arguments encode_field : simpl never.
#[local] Arguments match_field : simpl never.

Lemma match_field_exact names k : In k names -> match_field names k = Some k.
Proof.
  intros Hin. unfold match_field.
  assert (find (String.eqb k) names = Some k) as ->; [|done].
  induction names as [|n names IH]; simpl in *; [done|].
  destruct (String.eqb_spec k n) as [->|Hne]; [done|].
  destruct Hin as [->|Hin]; [done|auto].
Qed.

Lemma match_field_None_not_In names k :
  match_field names k = None -> ~ In k names.
Proof. intros Hm Hin. by rewrite match_field_exact in Hm. Qed.

Lemma encode_field_name m fd kv : encode_field m fd = Some kv -> fst kv = fst fd.
Proof.
  destruct fd as [f oe]. unfold encode_field.
  destruct (m !! f) as [v|]; [destruct (is_null v)|]; destruct oe;
    intros [= <-]; done.
Qed.

Lemma encode_struct_keys fields m x :
  In x (map fst (encode_struct fields m)) -> In x (map fst fields).
Proof.
  unfold encode_struct.
  induction fields as [|fd fields IH]; simpl; [done|].
  destruct (encode_field m fd) as [kv|] eqn:E; simpl; [|auto].
  apply encode_field_name in E. intros [<-|Hin]; auto.
Qed.

Lemma encode_struct_NoDup fields m :
  NoDup (map fst fields) -> NoDup (map fst (encode_struct fields m)).
Proof.
  unfold encode_struct.
  induction fields as [|fd fields IH]; simpl; intros Hnd; [constructor|].
  apply NoDup_cons in Hnd as [Hnin Hnd].
  destruct (encode_field m fd) as [kv|] eqn:E; simpl; [|auto].
  apply encode_field_name in E. apply NoDup_cons. split; [|auto].
  rewrite E. intros Hin%list_elem_of_In%encode_struct_keys.
  by apply Hnin, list_elem_of_In.
Qed.

Lemma field_tag_None fields f : field_tag fields f = None <-> ~ In f (map fst fields).
Proof.
  induction fields as [|[f1 oe] fields IH]; simpl; [tauto|].
  destruct (String.eqb_spec f f1) as [->|Hne].
  - split; [done|]. intros Hn. exfalso. apply Hn. by left.
  - rewrite IH. split; [intros Hn [?|?]; [congruence|tauto] | tauto].
Qed.

(** The member of the encoding under a field name. *)
Lemma encode_struct_get fields m f :
  NoDup (map fst fields) ->
  obj_get f (encode_struct fields m) =
  match field_tag fields f with
  | Some oe => snd <$> encode_field m (f, oe)
  | None => None
  end.
Proof.
  unfold encode_struct.
  induction fields as [|[f1 oe] fields IH]; simpl; intros Hnd; [done|].
  apply NoDup_cons in Hnd as [Hnin Hnd].
  destruct (String.eqb_spec f f1) as [->|Hne].
  - destruct (encode_field m (f1, oe)) as [kv|] eqn:E.
    + pose proof (encode_field_name _ _ _ E) as Hn. destruct kv as [k v].
      simpl in *. subst k. by rewrite String.eqb_refl.
    + simpl. apply obj_get_None_keys.
      intros Hin%encode_struct_keys. by apply Hnin, list_elem_of_In.
  - destruct (encode_field m (f1, oe)) as [kv|] eqn:E; [|auto].
    pose proof (encode_field_name _ _ _ E) as Hn. destruct kv as [k v].
    simpl in *. subst k.
    destruct (String.eqb_spec f f1); [done|auto].
Qed.

(** The encoding of a field depends on the value the field is set to only. *)
Lemma encode_field_set_value m1 m2 f oe :
  set_value m1 f = set_value m2 f ->
  encode_field m1 (f, oe) = encode_field m2 (f, oe).
Proof.
  unfold set_value, encode_field.
  destruct (m1 !! f) as [v1|], (m2 !! f) as [v2|];
    repeat match goal with |- context [is_null ?v] => destruct (is_null v) end;
    intros [=]; subst; done.
Qed.

Lemma encode_field_non_null m f oe :
  non_null (snd <$> encode_field m (f, oe)) = set_value m f.
Proof.
  unfold set_value, encode_field.
  destruct (m !! f) as [v|]; [destruct (is_null v) eqn:E|]; destruct oe;
    simpl; rewrite ?E; done.
Qed.

(** Decoding an object whose member names are field names and unique. *)
Lemma decode_struct_lookup names ms :
  forall cur f,
    NoDup (map fst ms) -> (forall k, In k (map fst ms) -> In k names) ->
    decode_struct names cur ms !! f =
    match obj_get f ms with
    | Some v => if is_null v then None else Some v
    | None => cur !! f
    end.
Proof.
  unfold decode_struct.
  induction ms as [|[k v] ms IH]; intros cur f Hnd Hin; simpl; [done|].
  apply NoDup_cons in Hnd as [Hnin Hnd].
  rewrite IH; [|done|by intros; apply Hin; right].
  rewrite match_field_exact; [|apply Hin; by left].
  destruct (String.eqb_spec f k) as [->|Hne].
  - assert (obj_get k ms = None) as ->.
    { apply obj_get_None_keys. by intros ?%list_elem_of_In. }
    destruct (is_null v); [apply lookup_delete_eq|apply lookup_insert_eq].
  - destruct (obj_get f ms); [done|].
    destruct (is_null v);
      [by apply lookup_delete_ne|by apply lookup_insert_ne].
Qed.

Lemma decode_struct_set_value names ms f :
  NoDup (map fst ms) -> (forall k, In k (map fst ms) -> In k names) ->
  set_value (decode_struct names ∅ ms) f = non_null (obj_get f ms).
Proof.
  intros Hnd Hin. unfold set_value, non_null.
  rewrite decode_struct_lookup; [|done..].
  destruct (obj_get f ms) as [v|]; [|by rewrite lookup_empty].
  destruct (is_null v) eqn:E; [done|by rewrite E].
Qed.

Lemma encode_field_by_set_value m f oe :
  encode_field m (f, oe) =
  match set_value m f with
  | Some v => Some (f, v)
  | None => if oe then None else Some (f, JNull)
  end.
Proof.
  unfold set_value, encode_field.
  destruct (m !! f) as [v|]; [destruct (is_null v)|]; done.
Qed.

(** Decoding an object into the struct and encoding the struct again. *)
Lemma recode_get fields ms f :
  NoDup (map fst fields) -> NoDup (map fst ms) ->
  (forall k, In k (map fst ms) -> In k (map fst fields)) ->
  obj_get f (encode_struct fields (decode_struct (map fst fields) ∅ ms)) =
  match field_tag fields f with
  | Some oe =>
      match non_null (obj_get f ms) with
      | Some v => Some v
      | None => if oe then None else Some JNull
      end
  | None => None
  end.
Proof.
  intros Hf Hnd Hin. rewrite encode_struct_get by done.
  destruct (field_tag fields f) as [oe|]; [|done].
  rewrite encode_field_by_set_value, decode_struct_set_value by done.
  destruct (non_null (obj_get f ms)); [done|by destruct oe].
Qed.

Lemma recode_at_deep fields ms f k path :
  NoDup (map fst fields) -> NoDup (map fst ms) ->
  (forall k, In k (map fst ms) -> In k (map fst fields)) ->
  json_at (f :: k :: path)
    (JObj (encode_struct fields (decode_struct (map fst fields) ∅ ms))) =
  json_at (f :: k :: path) (JObj ms).
Proof.
  intros Hf Hnd Hin. cbn [json_at]. rewrite recode_get by done.
  destruct (field_tag fields f) as [oe|] eqn:Ht.
  - unfold non_null. destruct (obj_get f ms) as [v|].
    + destruct (is_null v) eqn:E; [|done].
      destruct v; try done. by destruct oe.
    + by destruct oe.
  - apply field_tag_None in Ht.
    assert (obj_get f ms = None) as ->; [|done].
    apply obj_get_None_keys. auto.
Qed.

(** ** The spec merge, [patchClusterSpec] *)

Section PatchProperties.

Context `{Env}.

Hypothesis json_decode_encode : forall d, json_decode (json_encode d) = Some d.

Lemma handleUnmarshal_spec (s : option StolonSpec) :
  handleUnmarshal (json_encode (StolonSpec_to_json s)) = Some (spec_members s).
Proof.
  unfold handleUnmarshal. rewrite json_decode_encode. by destruct s.
Qed.

(** The merge never fails on specs: its result is the struct decoded from the
    merge of the two encodings. *)
Lemma patchClusterSpec_spec (spec patch : option StolonSpec) :
  patchClusterSpec spec patch =
  (Some (decode_struct StolonSpec_names ∅
           (mergeMap mergeKey (spec_members spec) (spec_members patch))),
   None).
Proof.
  unfold patchClusterSpec, json_Marshal_StolonSpec, StrategicMergePatch.
  rewrite !handleUnmarshal_spec.
  unfold json_Unmarshal_StolonSpec. by rewrite json_decode_encode.
Qed.

Lemma merged_members_keys (spec patch : option StolonSpec) k :
  In k (map fst (mergeMap mergeKey (spec_members spec) (spec_members patch))) ->
  In k StolonSpec_names.
Proof.
  intros [Hin|Hin]%mergeMap_keys.
  - destruct spec; [by apply encode_struct_keys in Hin|done].
  - destruct patch; [by apply encode_struct_keys in Hin|done].
Qed.

Lemma merged_members_NoDup (spec patch : option StolonSpec) :
  NoDup StolonSpec_names ->
  NoDup (map fst (mergeMap mergeKey (spec_members spec) (spec_members patch))).
Proof.
  intros Hnd. apply mergeMap_NoDup.
  destruct spec; [by apply encode_struct_NoDup|constructor].
Qed.

(** C4: for well-formed spec documents [B] and [P] the merge succeeds; at
    every path that the patch [P] omits the result has what the base [B] has
    there, and at every path where [P] has a scalar the result has that
    scalar.  Paths name fields at any depth; the documents are the JSON
    encodings of the three specs. *)
Theorem patchClusterSpec_retains_and_overrides (B P : StolonSpec) :
  NoDup StolonSpec_names ->
  wf_json (StolonSpec_to_json (Some P)) ->
  exists R,
    patchClusterSpec (Some B) (Some P) = (Some R, None)
    /\ (forall path,
          omits path (StolonSpec_to_json (Some P)) = true ->
          json_at path (StolonSpec_to_json (Some R))
          = json_at path (StolonSpec_to_json (Some B)))
    /\ (forall path v,
          json_at path (StolonSpec_to_json (Some P)) = Some v ->
          is_scalar v = true ->
          json_at path (StolonSpec_to_json (Some R)) = Some v).
Proof.
  intros Hnames Hwf. eexists. split; [apply patchClusterSpec_spec|].
  pose proof (merged_members_keys (Some B) (Some P)) as Hkeys.
  pose proof (merged_members_NoDup (Some B) (Some P) Hnames) as Hnd.
  simpl spec_members in *. simpl StolonSpec_to_json in *.
  set (bo := encode_struct StolonSpec_fields B) in *.
  set (po := encode_struct StolonSpec_fields P) in *.
  set (ms := mergeMap mergeKey bo po) in *.
  split.
  - intros [|f [|k path]] Hom; [done| |].
    + (* a field of the struct *)
      simpl in Hom. destruct (obj_get f po) eqn:Hf; [done|]. clear Hom.
      cbn [json_at]. unfold StolonSpec_names in *.
      rewrite recode_get by done.
      unfold ms at 1. rewrite mergeMap_get_absent by done.
      unfold bo. rewrite encode_struct_get by done.
      destruct (field_tag StolonSpec_fields f) as [oe|]; [|done].
      rewrite encode_field_non_null, encode_field_by_set_value.
      destruct (set_value B f); [done|by destruct oe].
    + (* below a field *)
      unfold StolonSpec_names in *. rewrite recode_at_deep by done.
      by apply mergeMap_at_omitted.
  - intros [|f [|k path]] v Hat Hsc.
    + simpl in Hat. by injection Hat as <-.
    + pose proof (mergeMap_at_scalar mergeKey [f] bo po v Hwf Hat Hsc) as Hm.
      fold ms in Hm. cbn [json_at] in *. unfold StolonSpec_names in *.
      rewrite recode_get by done.
      destruct (obj_get f ms) as [v'|] eqn:Hf; [|done]. injection Hm as ->.
      destruct (field_tag StolonSpec_fields f) as [oe|] eqn:Ht.
      * unfold non_null. by destruct v.
      * apply field_tag_None in Ht. exfalso. apply Ht, Hkeys.
        by eapply obj_get_Some_keys.
    + unfold StolonSpec_names in *. rewrite recode_at_deep by done.
      by apply mergeMap_at_scalar.
Qed.

(** C5 as amended: the decode, merge, encode round trip drops a member of the
    base document that no field of the spec type matches.  The base document
    is decoded into the struct, the merge gives a struct again, and the
    encoding of that struct has the fields of the schema only. *)
Theorem unrecognised_field_is_dropped
    (base : list (string * json)) (patch : option StolonSpec) (f : string) (v : json) :
  obj_get f base = Some v ->
  match_field StolonSpec_names f = None ->
  exists B R,
    json_Unmarshal_StolonSpec (json_encode (JObj base)) = (Some B, None)
    /\ patchClusterSpec (Some B) patch = (Some R, None)
    /\ json_at [f] (StolonSpec_to_json (Some R)) = None
    /\ (forall k, In k (map fst (spec_members (Some R))) -> In k StolonSpec_names).
Proof.
  intros _ Hunknown. do 2 eexists.
  split; [|split; [apply patchClusterSpec_spec|split]].
  - unfold json_Unmarshal_StolonSpec. by rewrite json_decode_encode.
  - cbn [json_at StolonSpec_to_json].
    match goal with |- context [obj_get f ?o] => assert (obj_get f o = None) as -> end;
      [|done].
    apply obj_get_None_keys. intros Hin%encode_struct_keys.
    by apply (match_field_None_not_In _ _ Hunknown).
  - intros k Hin. by apply encode_struct_keys in Hin.
Qed.

End PatchProperties.

(** ** The merge on pointers *)

Section PointerProperties.

Context `{Env}.

Lemma json_Unmarshal_ptr_frame b (h : gmap loc StolonSpec) :
  exists r h',
    json_Unmarshal_ptr b h = (r, h')
    /\ h ⊆ h'
    /\ (fst r = None -> h' = h)
    /\ (forall l, fst r = Some l -> h !! l = None /\ is_Some (h' !! l))
    /\ (deref h' (fst r), snd r) = json_Unmarshal_StolonSpec b.
Proof.
  unfold json_Unmarshal_ptr.
  destruct (json_Unmarshal_StolonSpec b) as [[s|] err]; do 2 eexists;
    (split; [reflexivity|]); simpl.
  - assert (h !! fresh (dom h) = None) as Hfresh.
    { apply not_elem_of_dom, is_fresh. }
    split; [by apply insert_subseteq|]. split; [done|].
    split; [|by rewrite lookup_insert_eq].
    intros l [= <-]. by rewrite lookup_insert_eq.
  - done.
Qed.

(** C10: the merge leaves the objects its arguments point to as they were,
    whether it succeeds or fails: every object of the heap is unchanged, a
    failing merge leaves the heap as it was, and the result of a successful
    one is a newly allocated object, built from the encodings of the two
    arguments as the merge on values builds it. *)
Theorem patchClusterSpec_ptr_leaves_arguments
    (spec patch : option loc) (h : gmap loc StolonSpec) :
  exists r h',
    patchClusterSpec_ptr spec patch h = (r, h')
    /\ h ⊆ h'
    /\ (forall v, deref h spec = Some v -> deref h' spec = Some v)
    /\ (forall v, deref h patch = Some v -> deref h' patch = Some v)
    /\ (snd r <> None -> fst r = None /\ h' = h)
    /\ (forall l, fst r = Some l -> h !! l = None)
    /\ (deref h' (fst r), snd r) = patchClusterSpec (deref h spec) (deref h patch).
Proof.
  assert (forall (h' : gmap loc StolonSpec) p v,
             h ⊆ h' -> deref h p = Some v -> deref h' p = Some v) as Hderef.
  { intros h' [l|] v Hsub; simpl; [|done]. intros Hl. by eapply lookup_weaken. }
  unfold patchClusterSpec_ptr, patchClusterSpec, json_Marshal_ptr.
  unfold json_Marshal_StolonSpec.
  destruct (StrategicMergePatch _ _) as [[newspecj|] [e|]];
    try (do 2 eexists; split; [reflexivity|]; simpl;
         repeat split; eauto; done).
  destruct (json_Unmarshal_ptr_frame newspecj h)
    as ([newspec err] & h1 & -> & Hsub & Hnone & Hfresh & Hval).
  simpl in *. rewrite <- Hval.
  destruct err as [e|]; do 2 eexists; (split; [reflexivity|]); simpl.
  - assert (newspec = None) as ->.
    { unfold json_Unmarshal_StolonSpec, StolonSpec_of_json in Hval.
      destruct newspec as [l|]; [|done]. exfalso.
      destruct (Hfresh l eq_refl) as [_ [s Hs]]. simpl in Hval. rewrite Hs in Hval.
      destruct (json_decode newspecj) as [[]|]; simplify_eq. }
    rewrite (Hnone eq_refl). repeat split; eauto; done.
  - repeat split; eauto; try done. intros l Hl. by apply Hfresh.
Qed.

End PointerProperties.

(** ** The backing store and the facade *)

Section StoreProperties.

Context `{Env}.

(** A world with the same documents, groups and log: what a request that
    writes nothing leaves. *)
Lemma next_fault_frame w f w1 :
  next_fault w = (f, w1) ->
  kv w1 = kv w /\ revision w1 = revision w /\ groups w1 = groups w
  /\ calls w1 = calls w
  /\ (backend_serves w -> f = None).
Proof.
  unfold next_fault, backend_serves.
  destruct (faults w) as [|f0 fs] eqn:E; intros [= <- <-]; simpl; auto.
Qed.

Lemma EtcdV3Store_Get_frame key w r w1 :
  EtcdV3Store_Get key w = (r, w1) ->
  kv w1 = kv w /\ revision w1 = revision w /\ groups w1 = groups w
  /\ calls w1 = calls w
  /\ (backend_serves w -> r = (kv w !! key, None)).
Proof.
  unfold EtcdV3Store_Get.
  destruct (next_fault w) as [f w0] eqn:E.
  apply next_fault_frame in E as (Hkv & Hrev & Hg & Hc & Hup).
  destruct f as [e|]; intros [= <- <-]; repeat split; try done.
  - intros Hs. by specialize (Hup Hs).
  - intros _. by rewrite Hkv.
Qed.

Lemma GetClusterData_frame cs w r w1 :
  GetClusterData cs w = (r, w1) ->
  kv w1 = kv w /\ revision w1 = revision w /\ groups w1 = groups w
  /\ calls w1 = calls w.
Proof.
  unfold GetClusterData.
  destruct (EtcdV3Store_Get _ w) as [[kvp err] w0] eqn:E.
  apply EtcdV3Store_Get_frame in E as (? & ? & ? & ? & _).
  destruct err; [by intros [= <- <-]|].
  destruct kvp as [p|]; [|by intros [= <- <-]].
  destruct (json_Unmarshal_ClusterData _ _) as [cld [e|]]; by intros [= <- <-].
Qed.

Lemma GetRepGroups_frame cs w r w1 :
  GetRepGroups cs w = (r, w1) ->
  kv w1 = kv w /\ revision w1 = revision w /\ groups w1 = groups w
  /\ calls w1 = calls w.
Proof.
  unfold GetRepGroups.
  destruct (EtcdV3Store_Get _ w) as [[kvp err] w0] eqn:E.
  apply EtcdV3Store_Get_frame in E as (? & ? & ? & ? & _).
  destruct err; [by intros [= <- <-]|].
  destruct kvp as [p|]; [|by intros [= <- <-]].
  destruct (json_Unmarshal_RepGroups _) as [rgdata [e|]]; by intros [= <- <-].
Qed.

(** A write touches its key only, and only when it returns no error; the
    groups and the log are left alone. *)
Lemma EtcdV3Store_Put_frame key value w err w1 :
  EtcdV3Store_Put key value w = (err, w1) ->
  groups w1 = groups w /\ calls w1 = calls w
  /\ (forall k, k <> key -> kv w1 !! k = kv w !! k)
  /\ match err with
     | Some _ => kv w1 = kv w /\ revision w1 = revision w
     | None => stored w1 key = Some value
     end.
Proof.
  unfold EtcdV3Store_Put, stored.
  destruct (next_fault w) as [f w0] eqn:E.
  apply next_fault_frame in E as (Hkv & Hrev & Hg & Hc & _).
  destruct f as [e|]; intros [= <- <-]; simpl; repeat split; try done.
  - by rewrite Hkv.
  - intros k Hne. by rewrite lookup_insert_ne, Hkv.
  - by rewrite lookup_insert_eq.
Qed.

Lemma PutClusterData_frame cs cldata w err w1 :
  PutClusterData cs cldata w = (err, w1) ->
  groups w1 = groups w /\ calls w1 = calls w
  /\ (forall k, k <> filepath.Join [storePath cs; "clusterdata"] ->
                kv w1 !! k = kv w !! k)
  /\ match err with
     | Some _ => kv w1 = kv w /\ revision w1 = revision w
     | None =>
         stored w1 (filepath.Join [storePath cs; "clusterdata"])
         = Some (json_encode (ClusterData_to_json cldata))
     end.
Proof.
  unfold PutClusterData, json_Marshal_ClusterData. apply EtcdV3Store_Put_frame.
Qed.

(** The fanout: the store is not touched; the log grows by one push per
    group visited, all in patch mode with the new spec; the groups visited
    are the whole range when every push succeeds, and the range up to the
    first failing group otherwise. *)
Lemma fanout_spec order newspec :
  forall w err w',
    fanout order newspec w = (err, w') ->
    kv w' = kv w /\ revision w' = revision w /\ faults w' = faults w
    /\ match err with
       | None => calls w' = calls w ++ map (push newspec None) order
       | Some e =>
           exists pre entry post,
             order = pre ++ entry :: post
             /\ calls w' = calls w ++ map (push newspec None) pre
                                   ++ [push newspec (Some e) entry]
       end.
Proof.
  induction order as [|[rgid rg] order IH]; intros w err w'; simpl.
  - intros [= <- <-]. by rewrite app_nil_r.
  - unfold StolonUpdate_call.
    destruct (StolonUpdate rg rgid true newspec (groups w)) as [[e|] g].
    + intros [= <- <-]. simpl. repeat split; try done.
      by exists [], (rgid, rg), order.
    + intros Hf. apply IH in Hf as (Hkv & Hrev & Hfl & Hcalls). simpl in *.
      repeat split; try done.
      destruct err as [e|].
      * destruct Hcalls as (pre & entry & post & -> & ->).
        exists ((rgid, rg) :: pre), entry, post. split; [done|].
        by rewrite <- !app_assoc.
      * rewrite Hcalls. by rewrite <- app_assoc.
Qed.

(** ** The spec propagation, [UpdateStolonSpec] *)

(** The two ways a run can go: it ends before the fanout, having changed
    neither the documents nor the log and not reporting success; or it reads
    the cluster data and the directory, fans out, and then either returns the
    error of the fanout or writes the cluster data with the new spec. *)
Lemma UpdateStolonSpec_inv cs spec patch w r w' :
  UpdateStolonSpec cs spec patch w = (r, w') ->
  (kv w' = kv w /\ revision w' = revision w /\ calls w' = calls w
   /\ r <> Returns None)
  \/ (exists cd kvp w1 newspec rgs kvp2 w2 err w3,
        GetClusterData cs w = ((Some cd, kvp, None), w1)
        /\ (if patch then patchClusterSpec (cdStolonSpec cd) spec else (spec, None))
           = (newspec, None)
        /\ GetRepGroups cs w1 = ((rgs, kvp2, None), w2)
        /\ fanout (range rgs) newspec w2 = (err, w3)
        /\ match err with
           | Some e => r = Returns (Some e) /\ w' = w3
           | None =>
               exists perr,
                 PutClusterData cs (Some (set_StolonSpec cd newspec)) w3 = (perr, w')
                 /\ r = Returns perr
           end).
Proof.
  unfold UpdateStolonSpec.
  destruct (GetClusterData cs w) as [[[cldata kvp] err] w1] eqn:Hget.
  pose proof (GetClusterData_frame _ _ _ _ Hget) as (Hkv1 & Hrev1 & _ & Hc1).
  destruct err as [e|]; [intros [= <- <-]; by left|].
  destruct cldata as [cd|]; [|intros [= <- <-]; by left].
  destruct (if patch then _ else _) as [newspec [e|]] eqn:Hnew;
    [intros [= <- <-]; by left|].
  destruct (GetRepGroups cs w1) as [[[rgs kvp2] err] w2] eqn:Hrg.
  pose proof (GetRepGroups_frame _ _ _ _ Hrg) as (Hkv2 & Hrev2 & _ & Hc2).
  destruct err as [e|].
  { intros [= <- <-]. left. repeat split; congruence. }
  destruct (fanout (range rgs) newspec w2) as [ferr w3] eqn:Hfan.
  intros Hrun. right.
  exists cd, kvp, w1, newspec, rgs, kvp2, w2, ferr, w3.
  repeat split; try done.
  destruct ferr as [e|]; [by injection Hrun as <- <-|].
  destruct (PutClusterData _ _ w3) as [perr w4] eqn:Hput.
  injection Hrun as <- <-. by exists perr.
Qed.

Lemma new_calls_app w w' l : calls w' = calls w ++ l -> new_calls w w' = l.
Proof. intros Hc. unfold new_calls. rewrite Hc. by rewrite drop_app_length. Qed.

(** What a run adds to the log, and what it leaves of the documents when a
    push fails. *)
Lemma UpdateStolonSpec_log cs spec patch w r w' :
  UpdateStolonSpec cs spec patch w = (r, w') ->
  (new_calls w w' = [])
  \/ (exists newspec rgs p w1 w2,
        kv w1 = kv w
        /\ GetRepGroups cs w1 = ((rgs, p, None), w2)
        /\ ((new_calls w w' = map (push newspec None) (range rgs))
            \/ (exists e pre entry post,
                  range rgs = pre ++ entry :: post
                  /\ new_calls w w' = map (push newspec None) pre
                                      ++ [push newspec (Some e) entry]
                  /\ r = Returns (Some e)
                  /\ kv w' = kv w /\ revision w' = revision w))).
Proof.
  intros [(_ & _ & Hc & _)|Hrun]%UpdateStolonSpec_inv.
  { left. apply new_calls_app. by rewrite app_nil_r. }
  destruct Hrun as (cd & kvp & w1 & newspec & rgs & kvp2 & w2 & err & w3
                    & Hget & Hnew & Hrg & Hfan & Hend).
  pose proof (GetClusterData_frame _ _ _ _ Hget) as (Hkv1 & Hrev1 & _ & Hc1).
  pose proof (GetRepGroups_frame _ _ _ _ Hrg) as (Hkv2 & Hrev2 & _ & Hc2).
  pose proof (fanout_spec _ _ _ _ _ Hfan) as (Hkv3 & Hrev3 & _ & Hc3).
  right. exists newspec, rgs, kvp2, w1, w2. repeat split; try done.
  destruct err as [e|].
  - destruct Hend as [-> ->]. destruct Hc3 as (pre & entry & post & Hrange & Hc3).
    right. exists e, pre, entry, post. repeat split; try congruence.
    apply new_calls_app. by rewrite Hc3, Hc2, Hc1.
  - destruct Hend as (perr & Hput & ->).
    apply PutClusterData_frame in Hput as (_ & Hc4 & _).
    left. apply new_calls_app. congruence.
Qed.


(** X11: a run that succeeds has pushed the new spec to every group of the
    directory once, provided ranging over a map visits every entry once. *)
Lemma successful_run_pushes_every_group cs spec patch w w' :
  range_visits_all ->
  UpdateStolonSpec cs spec patch w = (Returns None, w') ->
  exists rgs p w1 w2,
    kv w1 = kv w
    /\ GetRepGroups cs w1 = ((rgs, p, None), w2)
    /\ Permutation (map (fun c => (call_rgid c, call_rg c)) (new_calls w w'))
                   (entries rgs)
    /\ Forall (fun c => call_err c = None) (new_calls w w').
Proof.
  intros Hrange [(_ & _ & _ & Hno)|Hrun]%UpdateStolonSpec_inv; [done|].
  destruct Hrun as (cd & kvp & w1 & newspec & rgs & kvp2 & w2 & err & w3
                    & Hget & Hnew & Hrg & Hfan & Hend).
  pose proof (GetClusterData_frame _ _ _ _ Hget) as (Hkv1 & _ & _ & Hc1).
  pose proof (GetRepGroups_frame _ _ _ _ Hrg) as (_ & _ & _ & Hc2).
  pose proof (fanout_spec _ _ _ _ _ Hfan) as (_ & _ & _ & Hc3).
  destruct err as [e|]; [by destruct Hend|].
  destruct Hend as (perr & Hput & _).
  apply PutClusterData_frame in Hput as (_ & Hc4 & _).
  assert (new_calls w w' = map (push newspec None) (range rgs)) as ->.
  { apply new_calls_app. congruence. }
  exists rgs, kvp2, w1, w2. repeat split; try done.
  - rewrite map_map. simpl.
    replace (map _ (range rgs)) with (range rgs).
    + destruct rgs as [m|]; [apply Hrange|done].
    + clear. induction (range rgs) as [|[] l IH]; simpl; [done|]. by rewrite <- IH.
  - by apply Forall_forall; intros c (? & -> & _)%list_elem_of_fmap.
Qed.

(** C1: when a push fails during the fanout, the run returns that push's
    error, the failing push is the last call of the run and the pushes before
    it succeeded, the groups pushed are an initial part of the range over the
    directory read from the store, no later one being attempted, and no
    document of the store is written: the cluster data is as it was. *)
Theorem UpdateStolonSpec_stops_at_first_failure cs spec patch w r w' c e :
  UpdateStolonSpec cs spec patch w = (r, w') ->
  In c (new_calls w w') ->
  call_err c = Some e ->
  r = Returns (Some e)
  /\ kv w' = kv w /\ revision w' = revision w
  /\ exists before,
       new_calls w w' = before ++ [c]
       /\ Forall (fun c' => call_err c' = None) before
       /\ exists rgs p w1 w2 later,
            kv w1 = kv w
            /\ GetRepGroups cs w1 = ((rgs, p, None), w2)
            /\ range rgs
               = map (fun c' => (call_rgid c', call_rg c')) (before ++ [c]) ++ later.
Proof.
  intros Hrun Hin Herr.
  apply UpdateStolonSpec_log in Hrun
    as [Hnil|(newspec & rgs & p & w1 & w2 & Hkv & Hrg & [Hall|Hfail])].
  - by rewrite Hnil in Hin.
  - rewrite Hall in Hin. apply in_map_iff in Hin as (entry & <- & _). done.
  - destruct Hfail as (e' & pre & entry & post & Hrange & Hnew & -> & Hkv' & Hrev').
    assert (c = push newspec (Some e') entry) as Hc.
    { rewrite Hnew in Hin. apply in_app_or in Hin as [Hin|[<-|[]]]; [|done].
      apply in_map_iff in Hin as (? & <- & _). done. }
    assert (e' = e) as -> by (rewrite Hc in Herr; by injection Herr).
    repeat split; try done.
    exists (map (push newspec None) pre). split; [by rewrite Hc|].
    split; [by apply Forall_forall; intros ? (? & -> & _)%list_elem_of_fmap|].
    exists rgs, p, w1, w2, post. repeat split; try done.
    rewrite Hrange, Hc, map_app, map_map. simpl.
    rewrite <- app_assoc. simpl. f_equal.
    + clear. induction pre as [|[] pre IH]; simpl; [done|]. by rewrite <- IH.
    + by destruct entry.
Qed.

(** With no cluster data in the store, a run ends in a nil pointer panic; it
    does not return an error. *)
Lemma UpdateStolonSpec_absent_panics cs spec patch w :
  backend_serves w ->
  kv w !! filepath.Join [storePath cs; "clusterdata"] = None ->
  fst (UpdateStolonSpec cs spec patch w) = Panics nil_dereference.
Proof.
  intros Hup Habs. unfold UpdateStolonSpec, GetClusterData.
  destruct (EtcdV3Store_Get _ w) as [r w1] eqn:E.
  apply EtcdV3Store_Get_frame in E as (_ & _ & _ & _ & Hr).
  rewrite (Hr Hup), Habs. done.
Qed.

(** ** Reading a key that was never written *)

Lemma GetClusterData_served cs w :
  backend_serves w ->
  fst (GetClusterData cs w) =
  match kv w !! filepath.Join [storePath cs; "clusterdata"] with
  | None => (None, None, None)
  | Some p =>
      match json_Unmarshal_ClusterData (Value p) ClusterData_zero with
      | (_, Some e) => (None, None, Some e)
      | (cldata, None) => (Some cldata, Some p, None)
      end
  end.
Proof.
  intros Hup. unfold GetClusterData.
  destruct (EtcdV3Store_Get _ w) as [r w1] eqn:E.
  apply EtcdV3Store_Get_frame in E as (_ & _ & _ & _ & Hr).
  rewrite (Hr Hup). destruct (kv w !! _) as [p|]; [|done].
  by destruct (json_Unmarshal_ClusterData _ _) as [cld [e|]].
Qed.

Lemma GetRepGroups_served cs w :
  backend_serves w ->
  fst (GetRepGroups cs w) =
  match kv w !! filepath.Join [storePath cs; "repgroups"] with
  | None => (None, None, None)
  | Some p =>
      match json_Unmarshal_RepGroups (Value p) with
      | (_, Some e) => (None, None, Some e)
      | (rgdata, None) => (rgdata, Some p, None)
      end
  end.
Proof.
  intros Hup. unfold GetRepGroups.
  destruct (EtcdV3Store_Get _ w) as [r w1] eqn:E.
  apply EtcdV3Store_Get_frame in E as (_ & _ & _ & _ & Hr).
  rewrite (Hr Hup). destruct (kv w !! _) as [p|]; [|done].
  by destruct (json_Unmarshal_RepGroups _) as [rgdata [e|]].
Qed.

(** C7: when the backend serves the request, reading the cluster data or the
    group directory under a key that holds no document returns neither a
    value, nor a pair, nor an error; a key that holds a document never reads
    so: the read returns an error (with no value and no pair) or the pair
    read, which is not nil; and a key holding the empty object reads as the
    zero-valued cluster data together with its pair. *)
Theorem reads_of_missing_keys_are_absent cs w :
  backend_serves w ->
  (kv w !! filepath.Join [storePath cs; "clusterdata"] = None ->
   fst (GetClusterData cs w) = (None, None, None))
  /\ (kv w !! filepath.Join [storePath cs; "repgroups"] = None ->
      fst (GetRepGroups cs w) = (None, None, None))
  /\ (forall p,
        kv w !! filepath.Join [storePath cs; "clusterdata"] = Some p ->
        (exists e, fst (GetClusterData cs w) = (None, None, Some e))
        \/ (exists cldata, fst (GetClusterData cs w) = (Some cldata, Some p, None)))
  /\ (forall p,
        kv w !! filepath.Join [storePath cs; "repgroups"] = Some p ->
        (exists e, fst (GetRepGroups cs w) = (None, None, Some e))
        \/ (exists rgs, fst (GetRepGroups cs w) = (rgs, Some p, None)))
  /\ (forall p,
        kv w !! filepath.Join [storePath cs; "clusterdata"] = Some p ->
        json_decode (Value p) = Some (JObj []) ->
        fst (GetClusterData cs w) = (Some ClusterData_zero, Some p, None)).
Proof.
  intros Hup.
  rewrite (GetClusterData_served cs w Hup), (GetRepGroups_served cs w Hup).
  repeat split.
  - by intros ->.
  - by intros ->.
  - intros p ->.
    destruct (json_Unmarshal_ClusterData _ _) as [cld [e|]]; eauto.
  - intros p ->.
    destruct (json_Unmarshal_RepGroups _) as [rgdata [e|]]; eauto.
  - intros p -> Hdoc. unfold json_Unmarshal_ClusterData. by rewrite Hdoc.
Qed.

(** ** Replacing the spec twice *)

Section Replace.

Hypothesis json_decode_encode : forall d, json_decode (json_encode d) = Some d.


Lemma GetClusterData_value cs w cd kvp w1 :
  GetClusterData cs w = ((Some cd, kvp, None), w1) ->
  exists p,
    kv w !! filepath.Join [storePath cs; "clusterdata"] = Some p
    /\ json_Unmarshal_ClusterData (Value p) ClusterData_zero = (cd, None).
Proof.
  unfold GetClusterData.
  destruct (EtcdV3Store_Get _ w) as [[o err] w0] eqn:E.
  unfold EtcdV3Store_Get in E.
  destruct (next_fault w) as [f w2] eqn:Ef.
  apply next_fault_frame in Ef as (Hkv & _).
  destruct f; injection E as <- <- <-; [done|].
  rewrite Hkv. destruct (kv w !! _) as [p|]; [|done].
  destruct (json_Unmarshal_ClusterData _ _) as [cld [e|]] eqn:Hd; [done|].
  intros [= <- <- <-]. by exists p.
Qed.


End Replace.

(** ** The connection resolver, [GetSuConnstrMap] *)

(** C6: for a group whose store opens and has a recorded master, and any
    cluster data, the resolver returns a map with the user, the database
    [postgres], and the master's host and port; the map has a password entry,
    the stored superuser password, exactly when the authentication method is
    not [trust]; it has no other entry. *)
Theorem GetSuConnstrMap_password_unless_trust rg cd g ss m :
  NewStolonStore rg g = (ss, None) ->
  StolonStore_GetMaster ss g = (Some m, None) ->
  exists cp : gmap string string,
    GetSuConnstrMap rg (Some cd) g = Returns (Some cp, None)
    /\ cp !! "user" = Some (PgSuUsername cd)
    /\ cp !! "dbname" = Some "postgres"
    /\ cp !! "host" = Some (ListenAddress m)
    /\ cp !! "port" = Some (Port m)
    /\ (PgSuAuthMethod cd <> "trust" -> cp !! "password" = Some (PgSuPassword cd))
    /\ (PgSuAuthMethod cd = "trust" -> cp !! "password" = None)
    /\ (forall k, is_Some (cp !! k) ->
                  In k ["user"; "dbname"; "host"; "port"; "password"]).
Proof.
  intros Hss Hm. unfold GetSuConnstrMap. rewrite Hss, Hm.
  eexists. split; [reflexivity|].
  destruct (String.eqb_spec (PgSuAuthMethod cd) "trust") as [Ht|Ht]; simpl.
  - repeat split; try by simplify_map_eq.
    intros k [v Hk].
    repeat (apply lookup_insert_Some in Hk as [[<- _]|[_ Hk]]; [simpl; tauto|]).
    by rewrite lookup_empty in Hk.
  - repeat split; try by simplify_map_eq.
    intros k [v Hk].
    repeat (apply lookup_insert_Some in Hk as [[<- _]|[_ Hk]]; [simpl; tauto|]).
    by rewrite lookup_empty in Hk.
Qed.

End StoreProperties.

(** ** Keys: [filepath.Join] on plain path elements *)

Lemma list_ascii_of_string_app (a b : string) :
  list_ascii_of_string (a ++ b)%string
  = list_ascii_of_string a ++ list_ascii_of_string b.
Proof. induction a as [|c a IH]; simpl; [done|]. by rewrite IH. Qed.

Lemma copy_element_plain e rest out :
  forallb (fun c => negb (filepath.IsPathSeparator c)) e = true ->
  filepath.at_end_or_sep rest = true ->
  filepath.copy_element (e ++ rest) out = (rest, rev e ++ out).
Proof.
  revert out. induction e as [|c e IH]; intros out He Hrest; simpl in *.
  - destruct rest as [|c rest]; [done|]. simpl in *. by rewrite Hrest.
  - apply andb_true_iff in He as [Hc He].
    apply negb_true_iff in Hc. rewrite Hc.
    rewrite IH by done. by rewrite <- app_assoc.
Qed.

(** One turn of the loop on a plain element: the default case of the switch,
    which writes a separator unless the buffer is empty and copies the
    element. *)
Lemma Clean_loop_element fuel e rest out :
  plain_chars e ->
  filepath.at_end_or_sep rest = true ->
  filepath.Clean_loop (S fuel) false (e ++ rest) out 0
  = filepath.Clean_loop fuel false rest
      (rev e ++ (if (length out =? 0)%nat then out else filepath.Separator :: out)) 0.
Proof.
  intros (Hne & Hdot & Hdotdot & Hsep) Hrest.
  destruct e as [|c e]; [done|].
  pose proof Hsep as Hsep'. simpl in Hsep'.
  apply andb_true_iff in Hsep' as [Hc He]. apply negb_true_iff in Hc.
  assert (filepath.is_dot c && filepath.at_end_or_sep (e ++ rest) = false) as Hcase2.
  { destruct (filepath.is_dot c) eqn:Hd; [simpl|done].
    apply Ascii.eqb_eq in Hd as ->.
    destruct e as [|c1 e]; [done|]. simpl in *.
    apply andb_true_iff in He as [Hc1 _]. by apply negb_true_iff in Hc1. }
  assert (filepath.is_dot c
          && match e ++ rest with
             | c1 :: rest2 => filepath.is_dot c1 && filepath.at_end_or_sep rest2
             | [] => false
             end = false) as Hcase3.
  { destruct (filepath.is_dot c) eqn:Hd; [simpl|done].
    apply Ascii.eqb_eq in Hd as ->.
    destruct e as [|c1 e]; [done|]. simpl in *.
    destruct (filepath.is_dot c1) eqn:Hd1; [simpl|done].
    apply Ascii.eqb_eq in Hd1 as ->.
    destruct e as [|c2 e]; [done|]. simpl in *.
    apply andb_true_iff in Hsep as [Hc2 _]. by apply negb_true_iff in Hc2. }
  change ((c :: e) ++ rest) with (c :: (e ++ rest)).
  cbn [filepath.Clean_loop]. rewrite Hc, Hcase2, Hcase3.
  change (c :: (e ++ rest)) with ((c :: e) ++ rest).
  rewrite copy_element_plain by done.
  cbn [andb negb orb]. by destruct (length out =? 0)%nat.
Qed.

Lemma join_elems_cons e es :
  es <> [] -> join_elems (e :: es) = e ++ filepath.Separator :: join_elems es.
Proof. by destruct es. Qed.

(** The loop copies a path made of plain elements as it is. *)
Lemma Clean_loop_elems es :
  forall fuel out,
    Forall plain_chars es -> es <> [] ->
    length (join_elems es) <= fuel ->
    filepath.Clean_loop fuel false (join_elems es) out 0
    = rev (join_elems es)
      ++ (if (length out =? 0)%nat then out else filepath.Separator :: out).
Proof.
  induction es as [|e es IH]; intros fuel out Hall Hne Hfuel; [done|].
  apply Forall_cons in Hall as [He Hall].
  assert (length e <> 0) as Hlen.
  { destruct He as (He & _). by destruct e. }
  destruct es as [|e' es].
  - simpl in *. destruct fuel as [|fuel]; [lia|].
    rewrite <- (app_nil_r e) at 1. rewrite Clean_loop_element by done.
    by destruct fuel.
  - rewrite join_elems_cons in * by done.
    rewrite length_app in Hfuel. simpl in Hfuel.
    destruct fuel as [|[|fuel]]; [lia..|].
    rewrite Clean_loop_element by done.
    cbn [filepath.Clean_loop].
    replace (filepath.IsPathSeparator filepath.Separator) with true by done.
    rewrite IH; [|done|done|simpl in *; lia].
    rewrite length_app.
    replace (length (rev e) + _ =? 0)%nat with false.
    2:{ symmetry. apply Nat.eqb_neq. rewrite length_rev. lia. }
    rewrite rev_app_distr. simpl. by rewrite <- !app_assoc.
Qed.

Lemma Clean_plain s es :
  list_ascii_of_string s = join_elems es ->
  Forall plain_chars es -> es <> [] ->
  filepath.Clean s = s.
Proof.
  intros Hs Hall Hne. unfold filepath.Clean. rewrite Hs.
  destruct (join_elems es) as [|c p1] eqn:Hj.
  { exfalso. destruct es as [|e es]; [done|].
    apply Forall_cons in Hall as [(He & _) _].
    destruct es; simpl in Hj; [done|]. by destruct e. }
  assert (filepath.IsPathSeparator c = false) as ->.
  { destruct es as [|e es]; [done|].
    apply Forall_cons in Hall as [(He & _ & _ & Hsep) _].
    destruct e as [|c' e]; [done|].
    assert (c' = c) as -> by (destruct es; simpl in Hj; congruence).
    simpl in Hsep. apply andb_true_iff in Hsep as [Hc _].
    by apply negb_true_iff in Hc. }
  rewrite <- Hj. rewrite Clean_loop_elems by (done || by rewrite Hj).
  simpl. rewrite app_nil_r.
  destruct (rev (join_elems es)) as [|c' out] eqn:Hr.
  { apply (f_equal (@length _)) in Hr. rewrite length_rev, Hj in Hr. done. }
  rewrite <- Hr, rev_involutive, Hj, <- Hs. apply string_of_list_ascii_of_string.
Qed.

Lemma join_elems_snoc es e :
  es <> [] -> join_elems (es ++ [e]) = join_elems es ++ filepath.Separator :: e.
Proof.
  induction es as [|e1 es IH]; intros Hne; [done|].
  destruct es as [|e2 es]; [done|].
  change ((e1 :: e2 :: es) ++ [e]) with (e1 :: ((e2 :: es) ++ [e])).
  rewrite !join_elems_cons by done. rewrite IH by done.
  by rewrite <- app_assoc.
Qed.

(** Joining a path of plain elements with one more plain element appends the
    separator and the element. *)
Lemma Join_plain s es b :
  list_ascii_of_string s = join_elems es ->
  Forall plain_chars es -> es <> [] ->
  plain_element b ->
  filepath.Join [s; b] = (s ++ "/" ++ b)%string
  /\ list_ascii_of_string (s ++ "/" ++ b)%string
     = join_elems (es ++ [list_ascii_of_string b]).
Proof.
  intros Hs Hall Hne Hb.
  assert (list_ascii_of_string (s ++ "/" ++ b)%string
          = join_elems (es ++ [list_ascii_of_string b])) as Hj.
  { rewrite join_elems_snoc by done.
    by rewrite !list_ascii_of_string_app, Hs. }
  split; [|done].
  assert (String.eqb s "" = false) as Hnonempty.
  { apply String.eqb_neq. intros ->. simpl in Hs.
    destruct es as [|e es]; [done|].
    apply Forall_cons in Hall as [(He & _) _].
    destruct es; simpl in Hs; [done|]. by destruct e. }
  unfold filepath.Join. rewrite Hnonempty.
  change (filepath.strings_Join [s; b]) with (s ++ "/" ++ b)%string.
  apply (Clean_plain _ _ Hj); [|by destruct es].
  apply Forall_app. split; [done|]. by constructor.
Qed.

Lemma plain_hodgepodge : plain_element "hodgepodge".
Proof. unfold plain_element, plain_chars. simpl. by repeat split. Qed.

Lemma plain_sub_paths sub : In sub sub_paths -> plain_element sub.
Proof.
  intros [<-|[<-|[<-|[]]]]; unfold plain_element, plain_chars; simpl;
    by repeat split.
Qed.

(** The key of a document of a cluster with a plain name. *)
Lemma cluster_key_plain n sub :
  plain_element n -> plain_element sub ->
  filepath.Join ["hodgepodge"; n] = ("hodgepodge" ++ "/" ++ n)%string
  /\ cluster_key n sub = (("hodgepodge" ++ "/" ++ n) ++ "/" ++ sub)%string.
Proof.
  intros Hn Hsub.
  destruct (Join_plain "hodgepodge" [list_ascii_of_string "hodgepodge"] n)
    as [Hj Hl]; try done.
  { constructor; [apply plain_hodgepodge|constructor]. }
  split; [done|]. rewrite Hj.
  eapply Join_plain; [exact Hl| |done|done].
  simpl. constructor; [apply plain_hodgepodge|]. constructor; [done|constructor].
Qed.



(** ** Keys of the cluster store *)

Section KeyProperties.

Context `{Env}.

Lemma NewClusterStore_storePath endpoints cluster_name cs :
  NewClusterStore endpoints cluster_name = (Some cs, None) ->
  storePath cs = filepath.Join ["hodgepodge"; cluster_name].
Proof.
  unfold NewClusterStore.
  generalize (filepath.Join ["hodgepodge"; cluster_name]). intros sp.
  destruct (etcdclientv3_New _) as [e|]; intros Heq; [discriminate Heq|].
  by injection Heq as <-.
Qed.

Lemma PutRepGroups_frame cs rgs w err w1 :
  PutRepGroups cs rgs w = (err, w1) ->
  forall k, k <> filepath.Join [storePath cs; "repgroups"] ->
            kv w1 !! k = kv w !! k.
Proof.
  unfold PutRepGroups.
  destruct (json_Marshal_RepGroups rgs) as [rgsj [e|]]; [by intros [= _ <-]|].
  by intros (_ & _ & Hother & _)%EtcdV3Store_Put_frame.
Qed.

Lemma PutMasters_frame cs masters w err w1 :
  PutMasters cs masters w = (err, w1) ->
  forall k, k <> filepath.Join [storePath cs; "masters"] ->
            kv w1 !! k = kv w !! k.
Proof.
  unfold PutMasters.
  destruct (json_Marshal_Masters masters) as [mj [e|]]; [by intros [= _ <-]|].
  by intros (_ & _ & Hother & _)%EtcdV3Store_Put_frame.
Qed.


End KeyProperties.

(** * Further properties of the store *)

(** ** Round trips through the JSON codecs *)


Section RoundTrips.

Context `{Env}.

Hypothesis json_decode_encode : forall d, json_decode (json_encode d) = Some d.



End RoundTrips.

(** ** Writing a document and reading it back *)

Section StoreRoundTrips.

Context `{Env}.

Lemma stored_lookup (w : World) key b :
  stored w key = Some b -> exists p, kv w !! key = Some p /\ Value p = b.
Proof.
  unfold stored. destruct (kv w !! key) as [p|]; [|done].
  intros [= <-]. by exists p.
Qed.


Lemma PutRepGroups_stored cs rgs w w1 :
  PutRepGroups cs rgs w = (None, w1) ->
  stored w1 (filepath.Join [storePath cs; "repgroups"])
  = Some (fst (json_Marshal_RepGroups rgs)).
Proof.
  unfold PutRepGroups.
  destruct (json_Marshal_RepGroups rgs) as [rgsj [e|]]; [by intros [= ]|].
  by intros (_ & _ & _ & Hstored)%EtcdV3Store_Put_frame.
Qed.

(** X2: a directory written by [PutRepGroups] is what [GetRepGroups] decodes
    next: the pair holds the bytes [json.Marshal] gave, and the map returned
    is what [json.Unmarshal] makes of them. *)
Theorem PutRepGroups_GetRepGroups_round_trip cs rgs rgs' w w1 :
  json_Unmarshal_RepGroups (fst (json_Marshal_RepGroups rgs)) = (rgs', None) ->
  PutRepGroups cs rgs w = (None, w1) ->
  backend_serves w1 ->
  exists p,
    fst (GetRepGroups cs w1) = (rgs', Some p, None)
    /\ Value p = fst (json_Marshal_RepGroups rgs).
Proof.
  intros Hcodec Hput Hup.
  apply PutRepGroups_stored in Hput.
  apply stored_lookup in Hput as (p & Hp & Hv).
  exists p. split; [|exact Hv].
  by rewrite (GetRepGroups_served cs w1 Hup), Hp, Hv, Hcodec.
Qed.

End StoreRoundTrips.

(** ** More on the spec propagation *)

Section PropagationProperties.

Context `{Env}.


(** X4: a run that returns nil read cluster data from the store, computed
    the new spec from it (the caller's spec in Replace mode, the merge in
    Patch mode), pushed that same spec to the groups without an error, and
    wrote back the cluster data it read with the spec replaced and nothing
    else changed; no other document of the store was touched. *)
Theorem UpdateStolonSpec_success_stores_new_spec cs spec patch w w' :
  UpdateStolonSpec cs spec patch w = (Returns None, w') ->
  exists p cd newspec,
    kv w !! filepath.Join [storePath cs; "clusterdata"] = Some p
    /\ json_Unmarshal_ClusterData (Value p) ClusterData_zero = (cd, None)
    /\ (if patch then patchClusterSpec (cdStolonSpec cd) spec else (spec, None))
       = (newspec, None)
    /\ stored w' (filepath.Join [storePath cs; "clusterdata"])
       = Some (json_encode (ClusterData_to_json (Some (set_StolonSpec cd newspec))))
    /\ (forall k, k <> filepath.Join [storePath cs; "clusterdata"] ->
                  kv w' !! k = kv w !! k)
    /\ Forall (fun c => call_spec c = newspec /\ call_err c = None)
              (new_calls w w').
Proof.
  intros [(_ & _ & _ & Hno)|Hrun]%UpdateStolonSpec_inv; [done|].
  destruct Hrun as (cd & kvp & w1 & newspec & rgs & kvp2 & w2 & err & w3
                    & Hget & Hnew & Hrg & Hfan & Hend).
  pose proof (GetClusterData_frame _ _ _ _ Hget) as (Hkv1 & _ & _ & Hc1).
  pose proof (GetRepGroups_frame _ _ _ _ Hrg) as (Hkv2 & _ & _ & Hc2).
  pose proof (fanout_spec _ _ _ _ _ Hfan) as (Hkv3 & _ & _ & Hc3).
  destruct err as [e|]; [by destruct Hend|].
  destruct Hend as (perr & Hput & [= <-]).
  apply PutClusterData_frame in Hput as (_ & Hc4 & Hother & Hstored).
  apply GetClusterData_value in Hget as (p & Hp & Hdec).
  exists p, cd, newspec. repeat split; try done.
  - intros k Hk. rewrite (Hother k Hk). congruence.
  - assert (new_calls w w' = map (push newspec None) (range rgs)) as ->.
    { apply new_calls_app. congruence. }
    by apply Forall_forall; intros c (? & -> & _)%list_elem_of_fmap.
Qed.

Lemma EtcdV3Store_Get_healthy key (w : World) :
  faults w = [] -> EtcdV3Store_Get key w = ((kv w !! key, None), w).
Proof.
  intros Hf. unfold EtcdV3Store_Get, next_fault. by rewrite Hf.
Qed.

(** X5: a cluster with no directory document is updated without an error:
    with a healthy backend, readable cluster data and a new spec computed
    without an error, the run makes no push, returns nil and writes the
    cluster data with the new spec. *)
Theorem UpdateStolonSpec_without_directory cs spec (patch : bool) w p cd newspec :
  faults w = [] ->
  kv w !! filepath.Join [storePath cs; "clusterdata"] = Some p ->
  json_Unmarshal_ClusterData (Value p) ClusterData_zero = (cd, None) ->
  (if patch then patchClusterSpec (cdStolonSpec cd) spec else (spec, None))
  = (newspec, None) ->
  kv w !! filepath.Join [storePath cs; "repgroups"] = None ->
  exists w',
    UpdateStolonSpec cs spec patch w = (Returns None, w')
    /\ calls w' = calls w
    /\ stored w' (filepath.Join [storePath cs; "clusterdata"])
       = Some (json_encode (ClusterData_to_json (Some (set_StolonSpec cd newspec)))).
Proof.
  intros Hf Hp Hdec Hnew Hnone.
  destruct (PutClusterData cs (Some (set_StolonSpec cd newspec)) w)
    as [perr w'] eqn:Hput.
  assert (perr = None) as ->.
  { revert Hput. unfold PutClusterData, json_Marshal_ClusterData,
      EtcdV3Store_Put, next_fault. rewrite Hf. by intros [= <- _]. }
  exists w'. split.
  - unfold UpdateStolonSpec, GetClusterData, GetRepGroups.
    rewrite (EtcdV3Store_Get_healthy _ w Hf), Hp, Hdec, Hnew.
    rewrite (EtcdV3Store_Get_healthy _ w Hf), Hnone.
    cbn [range fanout]. by rewrite Hput.
  - apply PutClusterData_frame in Hput as (_ & Hc & _ & Hstored). by split.
Qed.

End PropagationProperties.

(** ** The three documents of one cluster *)

Lemma string_app_inv_head (a b c : string) :
  (a ++ b)%string = (a ++ c)%string -> b = c.
Proof. induction a as [|x a IH]; simpl; [done|]. intros [= Heq]. auto. Qed.

Section DocumentKeys.

Context `{Env}.

(** X6: for a cluster with a plain name the keys of the three documents are
    pairwise different, so writing one document leaves the other two as they
    were. *)
Theorem documents_do_not_overwrite_each_other endpoints cluster_name cs :
  plain_element cluster_name ->
  NewClusterStore endpoints cluster_name = (Some cs, None) ->
  (forall sub sub', In sub sub_paths -> In sub' sub_paths ->
     filepath.Join [storePath cs; sub] = filepath.Join [storePath cs; sub'] ->
     sub = sub')
  /\ (forall w err w1,
        (forall cldata, PutClusterData cs cldata w = (err, w1) ->
           kv w1 !! filepath.Join [storePath cs; "repgroups"]
           = kv w !! filepath.Join [storePath cs; "repgroups"]
           /\ kv w1 !! filepath.Join [storePath cs; "masters"]
              = kv w !! filepath.Join [storePath cs; "masters"])
        /\ (forall rgs, PutRepGroups cs rgs w = (err, w1) ->
              kv w1 !! filepath.Join [storePath cs; "clusterdata"]
              = kv w !! filepath.Join [storePath cs; "clusterdata"]
              /\ kv w1 !! filepath.Join [storePath cs; "masters"]
                 = kv w !! filepath.Join [storePath cs; "masters"])
        /\ (forall masters, PutMasters cs masters w = (err, w1) ->
              kv w1 !! filepath.Join [storePath cs; "clusterdata"]
              = kv w !! filepath.Join [storePath cs; "clusterdata"]
              /\ kv w1 !! filepath.Join [storePath cs; "repgroups"]
                 = kv w !! filepath.Join [storePath cs; "repgroups"])).
Proof.
  intros Hn Hcs. apply NewClusterStore_storePath in Hcs.
  assert (forall sub sub', In sub sub_paths -> In sub' sub_paths ->
            filepath.Join [storePath cs; sub] = filepath.Join [storePath cs; sub'] ->
            sub = sub') as Hinj.
  { intros sub sub' Hsub Hsub'. rewrite Hcs.
    destruct (cluster_key_plain cluster_name sub Hn (plain_sub_paths _ Hsub))
      as [_ ->].
    destruct (cluster_key_plain cluster_name sub' Hn (plain_sub_paths _ Hsub'))
      as [_ ->].
    intros Heq%string_app_inv_head. by injection Heq. }
  assert (forall sub sub', In sub sub_paths -> In sub' sub_paths -> sub <> sub' ->
            filepath.Join [storePath cs; sub] <> filepath.Join [storePath cs; sub'])
    as Hdiff.
  { intros sub sub' Hsub Hsub' Hne Heq. by apply Hne, Hinj. }
  assert (In "clusterdata" sub_paths) as Hcd by (by left).
  assert (In "repgroups" sub_paths) as Hrg by (by right; left).
  assert (In "masters" sub_paths) as Hms by (by right; right; left).
  split; [exact Hinj|].
  intros w err w1. split; [|split].
  - intros cldata (_ & _ & Hother & _)%PutClusterData_frame.
    split; apply Hother, Hdiff; try done.
  - intros rgs Hput. pose proof (PutRepGroups_frame _ _ _ _ _ Hput) as Hother.
    split; apply Hother, Hdiff; try done.
  - intros masters Hput. pose proof (PutMasters_frame _ _ _ _ _ Hput) as Hother.
    split; apply Hother, Hdiff; try done.
Qed.

End DocumentKeys.

(** ** More on the connection resolver *)

Section ResolverProperties.

Context `{Env}.

(** X7: when the group store opens and reports no error but no master either,
    or when the cluster data pointer is nil, the resolver does not return: it
    panics on the nil pointer. *)
Theorem GetSuConnstrMap_panics_on_nil rg cldata g ss master :
  NewStolonStore rg g = (ss, None) ->
  StolonStore_GetMaster ss g = (master, None) ->
  master = None \/ cldata = None ->
  GetSuConnstrMap rg cldata g = Panics nil_dereference.
Proof.
  intros Hss Hm Hnil. unfold GetSuConnstrMap. rewrite Hss, Hm.
  destruct Hnil as [-> | ->]; [by destruct cldata|done].
Qed.

(** X8: when the resolver returns, it returns either a map and no error or an
    error and no map; an error comes from opening the group store or from
    reading the master, unchanged. *)
Theorem GetSuConnstrMap_returns_map_or_error rg cldata g cp err :
  GetSuConnstrMap rg cldata g = Returns (cp, err) ->
  (is_Some cp <-> err = None)
  /\ (forall e, err = Some e ->
        snd (NewStolonStore rg g) = Some e
        \/ snd (StolonStore_GetMaster (fst (NewStolonStore rg g)) g) = Some e).
Proof.
  unfold GetSuConnstrMap.
  destruct (NewStolonStore rg g) as [ss [e|]]; simpl.
  { intros [= <- <-]. split; [|by left; congruence].
    split; [by intros [? ?]|done]. }
  destruct (StolonStore_GetMaster ss g) as [master [e|]]; simpl.
  { intros [= <- <-]. split; [|by right; congruence].
    split; [by intros [? ?]|done]. }
  destruct cldata as [cd|], master as [m|]; try done.
  intros [= <- <-]. split; [|done]. split; [done|by eexists].
Qed.

End ResolverProperties.

(** ** Splitting the endpoints *)

Lemma string_of_list_ascii_app (a b : list ascii) :
  string_of_list_ascii (a ++ b)
  = (string_of_list_ascii a ++ string_of_list_ascii b)%string.
Proof. induction a as [|c a IH]; simpl; [done|]. by rewrite IH. Qed.

Lemma split_on_not_nil sep cur s : split_on sep cur s <> [].
Proof.
  revert cur. induction s as [|c s IH]; intros cur; simpl; [done|].
  destruct (Ascii.eqb c sep); [done|apply IH].
Qed.

Lemma split_on_join sep cur s :
  join_with (String sep "") (split_on sep cur s)
  = string_of_list_ascii (rev cur ++ s).
Proof.
  revert cur. induction s as [|c s IH]; intros cur; simpl;
    [by rewrite app_nil_r|].
  destruct (Ascii.eqb_spec c sep) as [->|Hne].
  - pose proof (split_on_not_nil sep [] s) as Hnil.
    destruct (split_on sep [] s) as [|p ps] eqn:Hs; [done|].
    change (join_with (String sep "") (string_of_list_ascii (rev cur) :: p :: ps))
      with (string_of_list_ascii (rev cur) ++ String sep ""
            ++ join_with (String sep "") (p :: ps))%string.
    rewrite <- Hs, IH. simpl. by rewrite string_of_list_ascii_app.
  - rewrite IH. simpl. by rewrite <- app_assoc.
Qed.

Lemma forallb_rev_true {A} (f : A -> bool) l :
  forallb f l = true -> forallb f (rev l) = true.
Proof.
  rewrite !forallb_forall. intros Hall x Hin. by apply Hall, in_rev.
Qed.

Lemma split_on_pieces sep cur s :
  forallb (fun c => negb (Ascii.eqb c sep)) cur = true ->
  Forall (fun p => forallb (fun c => negb (Ascii.eqb c sep))
                           (list_ascii_of_string p) = true)
         (split_on sep cur s).
Proof.
  revert cur. induction s as [|c s IH]; intros cur Hcur; simpl.
  - repeat constructor. rewrite list_ascii_of_string_of_list_ascii.
    by apply forallb_rev_true.
  - destruct (Ascii.eqb c sep) eqn:Hc.
    + constructor; [|by apply IH].
      rewrite list_ascii_of_string_of_list_ascii. by apply forallb_rev_true.
    + apply IH. simpl. by rewrite Hc, Hcur.
Qed.

(** X9: [strings.Split] cuts a string at every separator: the pieces, of
    which there is at least one, hold no separator, and joined with the
    separator they give the string back. *)
Theorem strings_Split_round_trip s sep :
  join_with (String sep "") (strings_Split s sep) = s
  /\ Forall (fun p => forallb (fun c => negb (Ascii.eqb c sep))
                              (list_ascii_of_string p) = true)
            (strings_Split s sep)
  /\ strings_Split s sep <> [].
Proof.
  unfold strings_Split. split; [|split].
  - rewrite split_on_join. simpl. apply string_of_list_ascii_of_string.
  - by apply split_on_pieces.
  - apply split_on_not_nil.
Qed.

(** ** Reading the cluster data after an update *)



Section ReadAfterUpdate.

Context `{Env}.

Hypothesis json_decode_encode : forall d, json_decode (json_encode d) = Some d.



End ReadAfterUpdate.

(** * The properties on the concrete deployment *)

Import Example.

Lemma example_json_decode_encode (d : json) : json_decode (json_encode d) = Some d.
Proof. reflexivity. Qed.

(** C1 on three groups of which the second visited fails: the error is
    returned, the third group is not attempted, nothing is written. *)
Lemma stops_at_first_failure_witness :
  In failing_push
     (new_calls world_broken
        (snd (UpdateStolonSpec cs (Some spec_patch) true world_broken)))
  /\ call_err failing_push = Some (CollaboratorError "group update failed")
  /\ fst (UpdateStolonSpec cs (Some spec_patch) true world_broken)
     = Returns (Some (CollaboratorError "group update failed"))
  /\ stored (snd (UpdateStolonSpec cs (Some spec_patch) true world_broken))
            "hodgepodge/c1/clusterdata"
     = stored world_broken "hodgepodge/c1/clusterdata"
  /\ length (new_calls world_broken
               (snd (UpdateStolonSpec cs (Some spec_patch) true world_broken))) = 2.
Proof.
  assert (In failing_push
            (new_calls world_broken
               (snd (UpdateStolonSpec cs (Some spec_patch) true world_broken))))
    as Hin by (vm_compute; tauto).
  split; [exact Hin|]. split; [reflexivity|].
  destruct (UpdateStolonSpec_stops_at_first_failure
              cs (Some spec_patch) true world_broken _ _ failing_push _
              (surjective_pairing _) Hin eq_refl)
    as (Hr & Hkv & _ & before & Hnew & _).
  split; [exact Hr|]. split; [unfold stored; by rewrite Hkv|].
  by vm_compute.
Defined.

(** C2 at a store that holds no cluster data: the run ends in a nil pointer
    panic at [cldata.StolonSpec]; no error is returned. *)
Lemma UpdateStolonSpec_without_cluster_data_panics :
  UpdateStolonSpec cs (Some spec_patch) true empty_world
  = (Panics nil_dereference, empty_world).
Proof. by vm_compute. Qed.

(** C4 on the design's end-to-end scenario: base [{a:1, b:{x:1}}], patch
    [{b:{x:2}}]; [a], which the patch omits, keeps 1, and [b.x] takes 2. *)
Lemma retains_and_overrides_witness :
  NoDup StolonSpec_names
  /\ wf_json (StolonSpec_to_json (Some spec_patch))
  /\ exists R,
       patchClusterSpec (Some spec_old) (Some spec_patch) = (Some R, None)
       /\ json_at ["a"] (StolonSpec_to_json (Some R)) = Some (JNum 1)
       /\ json_at ["b"; "x"] (StolonSpec_to_json (Some R)) = Some (JNum 2).
Proof.
  assert (NoDup StolonSpec_names) as Hnames.
  { vm_compute. apply NoDup_cons. split; [|apply NoDup_singleton].
    by intros ?%list_elem_of_singleton. }
  assert (wf_json (StolonSpec_to_json (Some spec_patch))) as Hwf.
  { vm_compute. repeat split; repeat constructor; by intros ?%elem_of_nil. }
  split; [exact Hnames|]. split; [exact Hwf|].
  destruct (patchClusterSpec_retains_and_overrides
              example_json_decode_encode spec_old spec_patch Hnames Hwf)
    as (R & HR & Hom & Hsc).
  exists R. split; [exact HR|]. split.
  - rewrite (Hom ["a"]) by (by vm_compute). by vm_compute.
  - apply Hsc; by vm_compute.
Defined.

(** C5 fails: the base document [{a:1, zz:7}] has the member [zz], which the
    schema does not have and the empty patch does not touch; decoded, merged
    and encoded again, the document is [{a:1}]. *)
Lemma unknown_field_is_not_preserved :
  obj_get "zz" base_with_unknown = Some (JNum 7)
  /\ match_field StolonSpec_names "zz" = None
  /\ omits ["zz"] (StolonSpec_to_json (Some ∅)) = true
  /\ exists B R,
       json_Unmarshal_StolonSpec (json_encode (JObj base_with_unknown))
       = (Some B, None)
       /\ patchClusterSpec (Some B) (Some ∅) = (Some R, None)
       /\ json_Marshal_StolonSpec (Some R)
          = (json_encode (JObj [("a", JNum 1)]), None).
Proof.
  split; [reflexivity|]. split; [by vm_compute|]. split; [by vm_compute|].
  do 2 eexists. split; [vm_compute; reflexivity|].
  split; [vm_compute; reflexivity|]. by vm_compute.
Qed.

Lemma unrecognised_field_is_dropped_witness :
  obj_get "zz" base_with_unknown = Some (JNum 7)
  /\ match_field StolonSpec_names "zz" = None
  /\ exists B R,
       json_Unmarshal_StolonSpec (json_encode (JObj base_with_unknown))
       = (Some B, None)
       /\ patchClusterSpec (Some B) (Some ∅) = (Some R, None)
       /\ json_at ["zz"] (StolonSpec_to_json (Some R)) = None
       /\ (forall k, In k (map fst (spec_members (Some R))) -> In k StolonSpec_names).
Proof.
  assert (match_field StolonSpec_names "zz" = None) as Hunknown by (by vm_compute).
  split; [reflexivity|]. split; [exact Hunknown|].
  exact (unrecognised_field_is_dropped example_json_decode_encode
           base_with_unknown (Some ∅) "zz" (JNum 7) eq_refl Hunknown).
Defined.

(** C6 on group 1, whose master is recorded: with [md5] the password is in
    the map. *)
Lemma password_unless_trust_witness :
  NewStolonStore (Some 1%Z) healthy_groups = (Some 1%Z, None)
  /\ StolonStore_GetMaster (Some 1%Z) healthy_groups = (Some master1, None)
  /\ exists cp : gmap string string,
       GetSuConnstrMap (Some 1%Z) (Some cldata_old) healthy_groups
       = Returns (Some cp, None)
       /\ cp !! "host" = Some "10.0.0.1"
       /\ cp !! "password" = Some "secret"
       /\ exists cp' : gmap string string,
            GetSuConnstrMap (Some 1%Z) (Some cldata_trust) healthy_groups
            = Returns (Some cp', None)
            /\ cp' !! "password" = None.
Proof.
  assert (StolonStore_GetMaster (Some 1%Z) healthy_groups = (Some master1, None))
    as Hm by (by vm_compute).
  split; [reflexivity|]. split; [exact Hm|].
  destruct (@GetSuConnstrMap_password_unless_trust env
              (Some 1%Z) cldata_old healthy_groups (Some 1%Z) master1 eq_refl Hm)
    as (cp & Hcp & _ & _ & Hhost & _ & Hpw & _).
  exists cp. split; [exact Hcp|]. split; [exact Hhost|].
  split; [apply Hpw; discriminate|].
  destruct (@GetSuConnstrMap_password_unless_trust env
              (Some 1%Z) cldata_trust healthy_groups (Some 1%Z) master1 eq_refl Hm)
    as (cp' & Hcp' & _ & _ & _ & _ & _ & Htrust & _).
  exists cp'. split; [exact Hcp'|exact (Htrust eq_refl)].
Defined.

(** C7 on a store nobody has written to. *)
Lemma reads_of_missing_keys_witness :
  backend_serves empty_world
  /\ kv empty_world !! filepath.Join [storePath cs; "clusterdata"] = None
  /\ kv empty_world !! filepath.Join [storePath cs; "repgroups"] = None
  /\ fst (GetClusterData cs empty_world) = (None, None, None)
  /\ fst (GetRepGroups cs empty_world) = (None, None, None)
  /\ fst (GetClusterData cs world_empty_doc)
     = (Some ClusterData_zero,
        Some (doc (JObj []) 1 "hodgepodge/c1/clusterdata"), None).
Proof.
  assert (kv empty_world !! filepath.Join [storePath cs; "clusterdata"] = None)
    as Hcd by (by vm_compute).
  assert (kv empty_world !! filepath.Join [storePath cs; "repgroups"] = None)
    as Hrg by (by vm_compute).
  split; [reflexivity|]. split; [exact Hcd|]. split; [exact Hrg|].
  destruct (reads_of_missing_keys_are_absent cs empty_world eq_refl)
    as (Habs1 & Habs2 & _).
  split; [exact (Habs1 Hcd)|]. split; [exact (Habs2 Hrg)|].
  destruct (reads_of_missing_keys_are_absent cs world_empty_doc eq_refl)
    as (_ & _ & _ & _ & Hempty).
  apply Hempty; by vm_compute.
Defined.




Lemma plain_c1 : plain_element "c1".
Proof. unfold plain_element, plain_chars. vm_compute. by repeat split. Qed.



(** * The further properties on the concrete deployment *)




(** X2 on a directory of three groups written to an empty store. *)
Lemma PutRepGroups_GetRepGroups_witness :
  json_Unmarshal_RepGroups (fst (json_Marshal_RepGroups (Some three_groups)))
  = (Some three_groups, None)
  /\ PutRepGroups cs (Some three_groups) empty_world = (None, after_put_groups)
  /\ backend_serves after_put_groups
  /\ exists p,
       fst (GetRepGroups cs after_put_groups) = (Some three_groups, Some p, None)
       /\ Value p = fst (json_Marshal_RepGroups (Some three_groups)).
Proof.
  assert (json_Unmarshal_RepGroups (fst (json_Marshal_RepGroups (Some three_groups)))
          = (Some three_groups, None)) as Hcodec by (by vm_compute).
  assert (PutRepGroups cs (Some three_groups) empty_world = (None, after_put_groups))
    as Hput by (by vm_compute).
  assert (backend_serves after_put_groups) as Hup by (by vm_compute).
  split; [exact Hcodec|]. split; [exact Hput|]. split; [exact Hup|].
  exact (PutRepGroups_GetRepGroups_round_trip cs (Some three_groups)
           (Some three_groups) empty_world after_put_groups Hcodec Hput Hup).
Defined.


(** X4 on the design's scenario: the patch [{b:{x:2}}] on the stored spec
    [{a:1, b:{x:1}}]. *)
Lemma UpdateStolonSpec_success_witness :
  UpdateStolonSpec cs (Some spec_patch) true world0 = (Returns None, after_patch)
  /\ exists p cd newspec,
       kv world0 !! filepath.Join [storePath cs; "clusterdata"] = Some p
       /\ json_Unmarshal_ClusterData (Value p) ClusterData_zero = (cd, None)
       /\ patchClusterSpec (cdStolonSpec cd) (Some spec_patch) = (newspec, None)
       /\ stored after_patch (filepath.Join [storePath cs; "clusterdata"])
          = Some (json_encode
                    (ClusterData_to_json (Some (set_StolonSpec cd newspec))))
       /\ (forall k, k <> filepath.Join [storePath cs; "clusterdata"] ->
                     kv after_patch !! k = kv world0 !! k)
       /\ Forall (fun c => call_spec c = newspec /\ call_err c = None)
                 (new_calls world0 after_patch).
Proof.
  assert (UpdateStolonSpec cs (Some spec_patch) true world0
          = (Returns None, after_patch)) as Hrun by (by vm_compute).
  split; [exact Hrun|].
  exact (UpdateStolonSpec_success_stores_new_spec cs (Some spec_patch) true
           world0 after_patch Hrun).
Defined.

(** X5 on a store that holds the cluster data of [c1] and no directory, in
    Replace mode. *)
Lemma UpdateStolonSpec_without_directory_witness :
  kv world_no_directory !! filepath.Join [storePath cs; "repgroups"] = None
  /\ exists w',
       UpdateStolonSpec cs (Some spec_patch) false world_no_directory
       = (Returns None, w')
       /\ calls w' = calls world_no_directory
       /\ stored w' (filepath.Join [storePath cs; "clusterdata"])
          = Some (json_encode
                    (ClusterData_to_json
                       (Some (set_StolonSpec cldata_old (Some spec_patch))))).
Proof.
  assert (kv world_no_directory !! filepath.Join [storePath cs; "repgroups"] = None)
    as Hnone by (by vm_compute).
  split; [exact Hnone|].
  apply (UpdateStolonSpec_without_directory cs (Some spec_patch) false
           world_no_directory
           (doc (ClusterData_to_json (Some cldata_old)) 1 "hodgepodge/c1/clusterdata")
           cldata_old (Some spec_patch)); try exact Hnone; by vm_compute.
Defined.

(** X6 on the cluster [c1]. *)
Lemma documents_do_not_overwrite_witness :
  plain_element "c1"
  /\ NewClusterStore "etcd:2379" "c1" = (Some cs, None)
  /\ filepath.Join [storePath cs; "clusterdata"]
     <> filepath.Join [storePath cs; "repgroups"]
  /\ (forall w err w1 cldata,
        PutClusterData cs cldata w = (err, w1) ->
        kv w1 !! filepath.Join [storePath cs; "repgroups"]
        = kv w !! filepath.Join [storePath cs; "repgroups"]).
Proof.
  assert (NewClusterStore "etcd:2379" "c1" = (Some cs, None)) as Hnew by (by vm_compute).
  split; [exact plain_c1|]. split; [exact Hnew|].
  destruct (documents_do_not_overwrite_each_other "etcd:2379" "c1" cs
              plain_c1 Hnew) as (Hinj & Hput).
  split.
  - intros Heq.
    apply (Hinj "clusterdata" "repgroups") in Heq; [discriminate| |];
      vm_compute; tauto.
  - intros w err w1 cldata Hw.
    exact (proj1 (proj1 (Hput w err w1) cldata Hw)).
Defined.

(** X7 on group 2, for which no master is recorded. *)
Lemma GetSuConnstrMap_panics_witness :
  NewStolonStore (Some 2%Z) healthy_groups = (Some 2%Z, None)
  /\ StolonStore_GetMaster (Some 2%Z) healthy_groups = (None, None)
  /\ GetSuConnstrMap (Some 2%Z) (Some cldata_old) healthy_groups
     = Panics nil_dereference.
Proof.
  assert (NewStolonStore (Some 2%Z) healthy_groups = (Some 2%Z, None))
    as Hss by reflexivity.
  assert (StolonStore_GetMaster (Some 2%Z) healthy_groups = (None, None))
    as Hm by (by vm_compute).
  split; [exact Hss|]. split; [exact Hm|].
  exact (@GetSuConnstrMap_panics_on_nil env (Some 2%Z) (Some cldata_old)
           healthy_groups (Some 2%Z) None Hss Hm (or_introl eq_refl)).
Defined.

(** X8 on a call without a group, which [NewStolonStore] refuses. *)
Lemma GetSuConnstrMap_returns_witness :
  GetSuConnstrMap None (Some cldata_old) healthy_groups
  = Returns (None, Some (CollaboratorError "no replication group"))
  /\ snd (NewStolonStore None healthy_groups)
     = Some (CollaboratorError "no replication group").
Proof.
  assert (GetSuConnstrMap None (Some cldata_old) healthy_groups
          = Returns (None, Some (CollaboratorError "no replication group")))
    as Hret by reflexivity.
  split; [exact Hret|].
  destruct (@GetSuConnstrMap_returns_map_or_error env None (Some cldata_old)
              healthy_groups None _ Hret) as [_ Herr].
  destruct (Herr _ eq_refl) as [Hnew|Hmaster]; [exact Hnew|discriminate Hmaster].
Defined.


(** X11 on the three groups of [c1]: each is pushed once. *)
Lemma successful_run_witness :
  range_visits_all
  /\ UpdateStolonSpec cs (Some spec_patch) true world0 = (Returns None, after_patch)
  /\ exists rgs p w1 w2,
       kv w1 = kv world0
       /\ GetRepGroups cs w1 = ((rgs, p, None), w2)
       /\ Permutation
            (map (fun c => (call_rgid c, call_rg c)) (new_calls world0 after_patch))
            (entries rgs)
       /\ Forall (fun c => call_err c = None) (new_calls world0 after_patch).
Proof.
  assert (range_visits_all) as Hrange by (intros m; reflexivity).
  assert (UpdateStolonSpec cs (Some spec_patch) true world0
          = (Returns None, after_patch)) as Hrun by (by vm_compute).
  split; [exact Hrange|]. split; [exact Hrun|].
  exact (successful_run_pushes_every_group cs (Some spec_patch) true
           world0 after_patch Hrange Hrun).
Defined.
